(** * The benchmark harness of zcbenchmarks.cpp

    A shallow embedding of the timing harness: the timer, the catalogue of
    benchmark operations, the synthetic large transaction and the loop that
    gathers the results of the threaded proof-of-work benchmark.

    The primitives that are timed (proof system, proof-of-work engine, keys,
    scripts, serialization) live in other files of the repository; they are
    interfaces here (type classes), and the harness is modelled over every
    implementation of them. *)

From Stdlib Require Import ZArith Lia List Bool.
From Stdlib Require Import Floats.SpecFloat.
From stdpp Require Import base option strings list sorting gmap sets.
From Equations.Prop Require Import Equations Logic.

Set Default Proof Using "Type".

(** ** Part I: definitions *)

(** *** IEEE 754 binary64, the C++ [double] *)

Module Double.

Definition prec : Z := 53.
Definition emax : Z := 1024.

(** A [double] is a binary64 value: zero, infinity, NaN or
    [(-1)^s * m * 2^e]. *)
Definition double : Type := spec_float.

Definition zero : double := S754_zero false.

(** [a + b] and [a / b] on doubles, rounding to nearest even. *)
Definition add (a b : double) : double := SFadd prec emax a b.
Definition div (a b : double) : double := SFdiv prec emax a b.
Definition opp (a : double) : double := SFopp a.

(** [double(z)] for a signed integer [z]: the nearest binary64 value. *)
Definition of_long (z : Z) : double := binary_normalize prec emax z 0 false.

(** [a <= b]; false when either side is NaN. *)
Definition leb (a b : double) : bool := SFleb a b.

(** [zero <= a]: the value is a number that is not below zero. *)
Definition nonneg (a : double) : Prop := leb zero a = true.

(** [a <= zero]: the value is a number that is not above zero. *)
Definition nonpos (a : double) : Prop := leb a zero = true.

(** [x'] is [x] with the sign of the integer it was computed from flipped:
    the opposite value, or zero again when that integer was zero. *)
Definition mirrored (x x' : double) : Prop :=
  x' = opp x ∨ (x = zero ∧ x' = zero).

(** A number (not NaN) with sign bit [s]. *)
Definition signed (s : bool) (x : double) : Prop :=
  match x with
  | S754_zero s' | S754_infinity s' | S754_finite s' _ _ => s' = s
  | S754_nan => False
  end.

(** A number that is at least one. *)
Definition ge1 (x : double) : Prop :=
  match x with
  | S754_finite false m e => (2 ^ (- e) <= Z.pos m)%Z
  | S754_infinity false => True
  | _ => False
  end.

(** A number of magnitude at most one. *)
Definition le1 (x : double) : Prop :=
  match x with
  | S754_finite _ m e => (e <= 0 ∧ Z.pos m <= 2 ^ (- e))%Z
  | S754_zero _ => True
  | _ => False
  end.

(** [a < b]; false when either side is NaN. *)
Definition ltb (a b : double) : bool := SFltb a b.

(** [zero < a] and [a < zero]: a number above zero, a number below zero. *)
Definition positive (a : double) : Prop := ltb zero a = true.
Definition negative (a : double) : Prop := ltb a zero = true.

(** A number of magnitude below one whose exponent is not below the least
    exponent of the format. *)
Definition lt1 (x : double) : Prop :=
  match x with
  | S754_finite _ m e => (-1074 <= e <= 0 ∧ Z.pos m < 2 ^ (- e))%Z
  | S754_zero _ => True
  | _ => False
  end.

(** The exponent is not below the least exponent of the format. *)
Definition representable (x : double) : Prop :=
  match x with
  | S754_finite _ _ e => (-1074 <= e)%Z
  | _ => True
  end.

End Double.

Abbreviation double := Double.double.

(** *** The timer *)

(** [struct timeval]: seconds and microseconds, two signed 64-bit integers
    ([time_t] and [suseconds_t] on the LP64 platforms the node builds for). *)
Record timeval := { tv_sec : Z; tv_usec : Z }.

(** Two's-complement wrap-around of a signed 64-bit result. *)
Definition wrap64 (z : Z) : Z := ((z + 2 ^ 63) mod 2 ^ 64 - 2 ^ 63)%Z.

Definition long_sub (a b : Z) : Z := wrap64 (a - b).

(** A timestamp as [gettimeofday] produces it: seconds since the epoch that
    fit a signed 64-bit integer, microseconds below one million. *)
Definition wall_clock (t : timeval) : Prop :=
  (0 <= tv_sec t < 2 ^ 63)%Z ∧ (0 <= tv_usec t < 1000000)%Z.

(** [end_] is not earlier than [start], on well-formed timestamps. *)
Definition not_earlier (start end_ : timeval) : Prop :=
  (tv_sec start < tv_sec end_)%Z ∨
  (tv_sec start = tv_sec end_ ∧ tv_usec start <= tv_usec end_)%Z.

(** [a] is earlier than [b], on well-formed timestamps. *)
Definition earlier (a b : timeval) : Prop :=
  (tv_sec a < tv_sec b)%Z ∨
  (tv_sec a = tv_sec b ∧ tv_usec a < tv_usec b)%Z.

(** The arithmetic of [timer_stop], lines 37-38:
    [double(tv_end.tv_sec-tv_start.tv_sec) +
     (tv_end.tv_usec-tv_start.tv_usec)/double(1000000)]. *)
Definition elapsed (tv_start tv_end : timeval) : double :=
  Double.add
    (Double.of_long (long_sub (tv_sec tv_end) (tv_sec tv_start)))
    (Double.div
       (Double.of_long (long_sub (tv_usec tv_end) (tv_usec tv_start)))
       (Double.of_long 1000000)).

(** The formula of the specification,
    [(end.sec - start.sec) + (end.usec - start.usec) / 1_000_000],
    read over the integers for the differences and over doubles for the
    quotient and the sum. *)
Definition elapsed_formula (start end_ : timeval) : double :=
  Double.add
    (Double.of_long (tv_sec end_ - tv_sec start))
    (Double.div
       (Double.of_long (tv_usec end_ - tv_usec start))
       (Double.of_long 1000000)).

(** *** The world the harness runs in *)

(** The wall clock and the blocking pause of the operating system.  A clock
    read returns the current time; the world may move on while it is read. *)
Class Platform := {
  World : Type;
  gettimeofday : World → timeval * World;
  sleep : Z → World → World;
}.

(** The fatal assertions of the file, by the line they stand on. *)
Inductive Assertion :=
| AssertJoinSplitVerifies          (* line 90 *)
| AssertSizeBelowUpper             (* line 198 *)
| AssertSizeAboveLower             (* line 199 *)
| AssertInputVerifies (i : nat).   (* line 210 *)

(** A run returns a value, stops at a failed assertion, or is left by an
    exception that a collaborator threw: nothing in the file catches one. *)
Inductive Outcome `{Platform} (A : Type) :=
| Returned (a : A) (w : World)
| Aborted (which : Assertion) (w : World)
| Thrown (w : World).
Arguments Returned {_ _} a w.
Arguments Aborted {_ _} which w.
Arguments Thrown {_ _} w.

Definition M `{Platform} (A : Type) : Type := World → Outcome A.

#[export] Instance M_ret `{Platform} : MRet M := λ A a w, Returned a w.
#[export] Instance M_bind `{Platform} : MBind M := λ A B f m w,
  match m w with
  | Returned a w' => f a w'
  | Aborted which w' => Aborted which w'
  | Thrown w' => Thrown w'
  end.

(** A call into a collaborator: it returns and leaves a new world. *)
Definition call `{Platform} {A} (f : World → A * World) : M A :=
  λ w, let '(a, w') := f w in Returned a w'.

(** A call into a collaborator that throws when what it needs is missing:
    [None] is the exception. *)
Definition call_or_throw `{Platform} {A} (f : World → option A * World) : M A :=
  λ w, match f w with
       | (Some a, w') => Returned a w'
       | (None, w') => Thrown w'
       end.

(** [assert(b)]. *)
Definition assert `{Platform} (which : Assertion) (b : bool) : M unit :=
  λ w, if b then Returned tt w else Aborted which w.

(** [for (size_t i = 0; i < n; i++) body(i)] threading the loop's state. *)
Fixpoint for_from `{Platform} {St} (i n : nat) (body : nat → St → M St) (s : St) : M St :=
  match n with
  | O => mret s
  | S n' => s' ← body i s; for_from (S i) n' body s'
  end.

Definition for_loop `{Platform} {St} (n : nat) (body : nat → St → M St) (s : St) : M St :=
  for_from 0 n body s.

(** [timer_start], lines 27-30: the clock is read into [tv_start]. *)
Definition timer_start `{Platform} : M timeval := call gettimeofday.

(** [timer_stop], lines 32-40.  [tv_start] is passed by reference; the
    second component of the result is its value when the function returns. *)
Definition timer_stop `{Platform} (tv_start : timeval) : M (double * timeval) :=
  tv_end ← call gettimeofday;
  mret (elapsed tv_start tv_end, tv_start).

(** [benchmark_sleep], lines 42-48. *)
Definition benchmark_sleep `{Platform} : M double :=
  tv_start ← timer_start;
  _ ← call (λ w, (tt, sleep 1 w));
  r ← timer_stop tv_start;
  mret r.1.

(** *** The proof system (zero-knowledge JoinSplit proofs) *)

(** [uint256]: a 256-bit number; a default-constructed one is zero. *)
Definition uint256 : Type := Z.
Definition uint256_default : uint256 := 0%Z.

(** What the harness uses of [ZCJoinSplit], [JSDescription] and
    [ZCIncrementalMerkleTree] (zcash/JoinSplit.hpp, primitives/transaction.h,
    zcash/IncrementalMerkleTree.hpp). *)
Class ProofSystem `{Platform} := {
  ZCJoinSplit : Type;
  JSInput : Type;
  JSOutput : Type;
  JSDescription : Type;
  (** the global [pzcashParams] *)
  pzcashParams : ZCJoinSplit;
  JSInput_default : JSInput;
  JSOutput_default : JSOutput;
  (** [ZCIncrementalMerkleTree().root()] *)
  empty_tree_root : uint256;
  (** the constructor [JSDescription(params, pubKeyHash, anchor, inputs,
      outputs, vpub_old, vpub_new)], which computes the proof *)
  JSDescription_new :
    ZCJoinSplit → uint256 → uint256 → list JSInput → list JSOutput → Z → Z →
    World → JSDescription * World;
  (** [jsdesc.Verify(params, pubKeyHash)] *)
  Verify : JSDescription → ZCJoinSplit → uint256 → World → bool * World;
  (** parameter files; the two loaders read a key file and throw when it
      cannot be read *)
  ZC_GetParamsDir : World → string * World;
  path_join : string → string → string;
  Unopened : World → ZCJoinSplit * World;
  loadVerifyingKey : string → ZCJoinSplit → World → option ZCJoinSplit * World;
  setProvingKeyPath : string → ZCJoinSplit → World → ZCJoinSplit * World;
  loadProvingKey : ZCJoinSplit → World → option ZCJoinSplit * World;
  delete_params : ZCJoinSplit → World → World;
}.

(** [benchmark_parameter_loading], lines 50-70.  There is no [try] around
    the loaders: an exception of theirs leaves the function at once. *)
Definition benchmark_parameter_loading `{ProofSystem} : M double :=
  dir1 ← call ZC_GetParamsDir;
  let pk_path := path_join dir1 "z9-proving.key" in
  dir2 ← call ZC_GetParamsDir;
  let vk_path := path_join dir2 "z9-verifying.key" in
  tv_start ← timer_start;
  newParams ← call Unopened;
  newParams ← call_or_throw (loadVerifyingKey vk_path newParams);
  newParams ← call (setProvingKeyPath pk_path newParams);
  newParams ← call_or_throw (loadProvingKey newParams);
  r ← timer_stop tv_start;
  let ret := r.1 in
  _ ← call (λ w, (tt, delete_params newParams w));
  mret ret.

(** The body of [benchmark_create_joinsplit], lines 72-92, returning the
    constructed description beside the measured time. *)
Definition create_joinsplit_body `{ProofSystem} : M (double * JSDescription) :=
  let pubKeyHash := uint256_default in
  let anchor := empty_tree_root in
  tv_start ← timer_start;
  jsdesc ← call (JSDescription_new pzcashParams pubKeyHash anchor
                   [JSInput_default; JSInput_default]
                   [JSOutput_default; JSOutput_default] 0 0);
  r ← timer_stop tv_start;
  let ret := r.1 in
  ok ← call (Verify jsdesc pzcashParams pubKeyHash);
  _ ← assert AssertJoinSplitVerifies ok;
  mret (ret, jsdesc).

(** [benchmark_create_joinsplit], lines 72-92. *)
Definition benchmark_create_joinsplit `{ProofSystem} : M double :=
  r ← create_joinsplit_body; mret r.1.

(** [benchmark_verify_joinsplit], lines 94-101.  The value of [Verify] is
    not used. *)
Definition benchmark_verify_joinsplit `{ProofSystem} (joinsplit : JSDescription) : M double :=
  tv_start ← timer_start;
  let pubKeyHash := uint256_default in
  _ ← call (Verify joinsplit pzcashParams pubKeyHash);
  r ← timer_stop tv_start;
  mret r.1.

(** Modelled from the spec: the constructor and the verifier of
    [JSDescription] (primitives/transaction.h, not under src/).  The
    specification requires that a freshly constructed proof verifies: a
    description constructed for two empty inputs, two empty outputs and zero
    value fields against an anchor verifies, at any later time, under the
    parameters and the public-key hash it was constructed with. *)
Definition fresh_proof_verifies `{ProofSystem} : Prop :=
  ∀ params pubKeyHash anchor w0 jsdesc w1,
    JSDescription_new params pubKeyHash anchor
      [JSInput_default; JSInput_default]
      [JSOutput_default; JSOutput_default] 0 0 w0 = (jsdesc, w1) →
    ∀ w, (Verify jsdesc params pubKeyHash w).1 = true.

(** *** The proof-of-work engine (Equihash) *)

(** Bytes are numbers below 256. *)
Definition bytes : Type := list Z.

(** What the harness uses of the chain parameters, of libsodium's BLAKE2b
    and of crypto/equihash.h and pow.h. *)
Class PowEngine `{Platform} := {
  CBlock : Type;
  CBlockHeader : Type;
  CChainParams : Type;
  eh_state : Type;
  (** [CBlock pblock;] *)
  CBlock_default : CBlock;
  (** [ss << CEquihashInput{pblock}] *)
  serialize_equihash_input : CBlock → bytes;
  (** [Params(CBaseChainParams::MAIN)] *)
  Params_MAIN : CChainParams;
  EquihashN : CChainParams → Z;
  EquihashK : CChainParams → Z;
  GenesisBlock : CChainParams → CBlock;
  GetBlockHeader : CBlock → CBlockHeader;
  EhInitialiseState : Z → Z → eh_state;
  crypto_generichash_blake2b_update : eh_state → bytes → eh_state;
  randombytes_buf : nat → World → bytes * World;
  (** the candidate solutions the solver finds for a hash state, in the
      order it finds them, and the time the search takes *)
  eh_candidates : Z → Z → eh_state → list bytes;
  eh_search : Z → Z → eh_state → World → World;
  CheckEquihashSolution : CBlockHeader → CChainParams → World → bool * World;
}.

(** Modelled from the spec: [EhOptimisedSolveUncancellable]
    (crypto/equihash.h, not under src/).  The solver hands every candidate
    solution it finds to the caller's accept/reject predicate, stops at the
    first candidate the predicate accepts, and reports whether one was
    accepted.  The predicate is a closure: [L] is the state it captures. *)
Fixpoint offer_candidates {L} (validBlock : bytes → L → bool * L)
    (candidates : list bytes) (l : L) : bool * L :=
  match candidates with
  | [] => (false, l)
  | soln :: rest =>
      let '(accepted, l') := validBlock soln l in
      if accepted then (true, l') else offer_candidates validBlock rest l'
  end.

Definition EhOptimisedSolveUncancellable `{PowEngine} {L}
    (n k : Z) (st : eh_state) (validBlock : bytes → L → bool * L) (l : L)
  : M (bool * L) :=
  λ w, Returned (offer_candidates validBlock (eh_candidates n k st) l)
                (eh_search n k st w).

(** The local variables of [benchmark_solve_equihash] that are alive while
    the solver runs: the set [solns] of line 124. *)
Record solve_locals := { solns : gset (list N) }.

(** The closure of line 126, [[](std::vector<unsigned char> soln) { return
    false; }]: it captures nothing, so the locals pass through unchanged. *)
Definition reject_all (soln : bytes) (l : solve_locals) : bool * solve_locals :=
  (false, l).

(** The body of [benchmark_solve_equihash], lines 103-128, returning the
    solver's verdict and the locals beside the measured time. *)
Definition solve_equihash_body `{PowEngine} : M (double * bool * solve_locals) :=
  let pblock := CBlock_default in
  let ss := serialize_equihash_input pblock in
  let n := EquihashN Params_MAIN in
  let k := EquihashK Params_MAIN in
  let eh := EhInitialiseState n k in
  let eh := crypto_generichash_blake2b_update eh ss in
  nonce ← call (randombytes_buf 32);
  let eh := crypto_generichash_blake2b_update eh nonce in
  tv_start ← timer_start;
  let locals := {| solns := ∅ |} in
  r ← EhOptimisedSolveUncancellable n k eh reject_all locals;
  t ← timer_stop tv_start;
  mret (t.1, r.1, r.2).

(** [benchmark_solve_equihash], lines 103-128. *)
Definition benchmark_solve_equihash `{PowEngine} : M double :=
  r ← solve_equihash_body; mret r.1.1.

(** The candidates offered to the predicate in a run that starts in [w]. *)
Definition offered_candidates `{PowEngine} (w : World) : list bytes :=
  let n := EquihashN Params_MAIN in
  let k := EquihashK Params_MAIN in
  let eh := crypto_generichash_blake2b_update (EhInitialiseState n k)
              (serialize_equihash_input CBlock_default) in
  eh_candidates n k
    (crypto_generichash_blake2b_update eh (randombytes_buf 32 w).1).

(** [benchmark_verify_equihash], lines 146-155.  The value of
    [CheckEquihashSolution] is not used. *)
Definition benchmark_verify_equihash `{PowEngine} : M double :=
  let params := Params_MAIN in
  let genesis := GenesisBlock Params_MAIN in
  let genesis_header := GetBlockHeader genesis in
  tv_start ← timer_start;
  _ ← call (CheckEquihashSolution genesis_header params);
  r ← timer_stop tv_start;
  mret r.1.

(** *** The concurrent runner *)

(** Boost.Thread as the runner uses it.  The tasks run
    [benchmark_solve_equihash] on threads of their own; the runner sees a
    [shared_future<double>] per task, known here by the position at which the
    task was launched.  [future_get i] is the duration the future of task [i]
    holds once it is ready.  [wait_for_any] stands for
    [boost::wait_for_any(begin, end)] on the pending futures: [None] is the
    iterator [end], [Some it] the iterator at offset [it] from [begin].  A
    run passes every pending list at most once, so a function of the list
    covers every schedule. *)
Class BoostThread := {
  future_get : nat → double;
  wait_for_any : list nat → option nat;
}.

(** The contract of [boost::wait_for_any] on a range: [end] for the empty
    range, otherwise an iterator into the range. *)
Definition wait_for_any_contract `{BoostThread} : Prop :=
  ∀ tasks : list nat,
    match wait_for_any tasks with
    | None => tasks = []
    | Some it => it < length tasks
    end.

(** The loop of lines 137-142.  Dereferencing or erasing an iterator that
    is outside the vector is undefined: the model has no result there. *)
Equations? gather `{BoostThread} (tasks : list nat) (ret : list double)
  : option (list double) by wf (length tasks) lt :=
gather tasks ret with inspect (wait_for_any tasks) := {
  | exist _ None _ := Some ret
  | exist _ (Some it) _ with inspect (tasks !! it) := {
    | exist _ (Some f) Hf := gather (delete it tasks) (ret ++ [future_get f])
    | exist _ None _ := None } }.
Proof.
  rewrite length_delete by (rewrite Hf; eauto).
  apply lookup_lt_Some in Hf. lia.
Qed.

(** The launch loop of lines 134-136: one task per [i] with [0 <= i <
    nThreads], in that order. *)
Definition launch (nThreads : Z) : list nat := seq 0 (Z.to_nat nThreads).

(** [benchmark_solve_equihash_threaded], lines 130-144. *)
Definition benchmark_solve_equihash_threaded `{BoostThread} (nThreads : Z)
  : option (list double) :=
  gather (launch nThreads) [].

(** A schedule that completes the pending tasks in the order [order] of
    their launch positions: [wait_for_any] returns the pending task that
    comes first in [order]. *)
Definition wait_in_order (order : list nat) (tasks : list nat) : option nat :=
  match tasks with
  | [] => None
  | _ =>
      match list_find (λ i, i ∈ tasks) order with
      | Some (_, i) => (λ p, p.1) <$> list_find (λ f, f = i) tasks
      | None => Some 0
      end
  end.

(** *** The runner in time *)

(** When the futures become ready and when the runner waits.  [ready_at i]
    is the time at which the task launched at position [i] finishes and its
    future becomes ready; [called_at pending] is the time at which the
    runner calls [wait_for_any] on the pending futures [pending]. *)
Record Timing := { ready_at : nat → nat; called_at : list nat → nat }.

(** The earliest completion among the futures [f :: rest]. *)
Definition earliest (T : Timing) (f : nat) (rest : list nat) : nat :=
  foldr Nat.min (ready_at T f) (ready_at T <$> rest).

(** [boost::wait_for_any(begin, end)] in time (boost/thread/future.hpp).
    The call blocks until a future of the range is ready: it returns at the
    time of the call, or at the earliest completion in the range if that is
    later.  It then goes through the range from its beginning and returns
    the first future that is ready. *)
Definition wait_in_time (T : Timing) (pending : list nat) : option nat :=
  match pending with
  | [] => None
  | f :: rest =>
      let woken := Nat.max (called_at T pending) (earliest T f rest) in
      (λ p, p.1) <$> list_find (λ i, ready_at T i ≤ woken) pending
  end.

(** Futures that hold the values [get] and become ready as [T] says. *)
Definition in_time (get : nat → double) (T : Timing) : BoostThread :=
  {| future_get := get; wait_for_any := wait_in_time T |}.

(** The reading "ordered by task completion time, the fastest-finishing
    task's duration first" of a result [ret] of [nThreads] tasks: [ret]
    lists the durations of the launched tasks, each once, and no task comes
    before one that finished earlier. *)
Definition in_completion_order (get : nat → double) (T : Timing)
    (nThreads : Z) (ret : list double) : Prop :=
  ∃ order,
    order ≡ₚ launch nThreads ∧
    StronglySorted (λ i j, ready_at T i ≤ ready_at T j) order ∧
    ret = get <$> order.

(** The runner is already waiting whenever a task finishes: each wait is
    called no later than the earliest completion among its futures. *)
Definition waits_for_each_completion (T : Timing) : Prop :=
  ∀ f rest, called_at T (f :: rest) ≤ earliest T f rest.

(** The tasks have all finished when the runner waits for them. *)
Definition finished_before_each_wait (T : Timing) : Prop :=
  ∀ pending i, i ∈ pending → ready_at T i ≤ called_at T pending.

(** *** The large transaction *)

Definition CScript : Type := bytes.

Record COutPoint := { hash : uint256; n : Z }.

Record CTxIn := { prevout : COutPoint; scriptSig : CScript; nSequence : Z }.

Record CTxOut := { nValue : Z; scriptPubKey : CScript }.

(** The inputs and outputs of a transaction; the other fields of
    [CMutableTransaction] keep their defaults throughout the benchmark. *)
Record CMutableTransaction := { vin : list CTxIn; vout : list CTxOut }.

(** [CMutableTransaction m;] *)
Definition CMutableTransaction_default : CMutableTransaction :=
  {| vin := []; vout := [] |}.

(** [CTxOut()]: the null output. *)
Definition CTxOut_default : CTxOut := {| nValue := -1; scriptPubKey := [] |}.

(** [CTxIn(hashPrevTx, nOut)]: empty unlocking script, final sequence. *)
Definition CTxIn_new (hashPrevTx : uint256) (nOut : Z) : CTxIn :=
  {| prevout := {| hash := hashPrevTx; n := nOut |};
     scriptSig := [];
     nSequence := 4294967295 |}.

(** [v.resize(k)] of [std::vector]. *)
Definition resize {A} (k : nat) (d : A) (v : list A) : list A :=
  take k v ++ replicate (k - length v) d.

Definition set_vin (tx : CMutableTransaction) (v : list CTxIn) : CMutableTransaction :=
  {| vin := v; vout := vout tx |}.

Definition set_vout (tx : CMutableTransaction) (v : list CTxOut) : CMutableTransaction :=
  {| vin := vin tx; vout := v |}.

(** What the harness uses of keys, scripts, signing and serialization
    (key.h, keystore.h, script/standard.h, script/sign.h,
    script/interpreter.h, streams.h, consensus/consensus.h). *)
Class ScriptSystem `{Platform} := {
  CKey : Type;
  CPubKey : Type;
  CKeyID : Type;
  CBasicKeyStore : Type;
  CKey_default : CKey;
  CBasicKeyStore_default : CBasicKeyStore;
  (** [priv.MakeNewKey(fCompressed)] *)
  MakeNewKey : bool → CKey → World → CKey * World;
  GetPubKey : CKey → CPubKey;
  GetID : CPubKey → CKeyID;
  AddKey : CKey → CBasicKeyStore → CBasicKeyStore;
  GetScriptForDestination : CKeyID → CScript;
  (** [CTransaction(m).GetTxid()] *)
  GetTxid : CMutableTransaction → uint256;
  SIGHASH_ALL : Z;
  (** [SignSignature(keystore, fromPubKey, txTo, nIn, nHashType)]: the
      transaction is passed by reference, the result is the [bool] returned
      and the transaction left behind *)
  SignSignature :
    CBasicKeyStore → CScript → CMutableTransaction → nat → Z →
    World → (bool * CMutableTransaction) * World;
  (** the size of [ss] after [ss << tx] *)
  serialized_size : CMutableTransaction → Z;
  (** an [unsigned int] constant *)
  MAX_BLOCK_SIZE : Z;
  STANDARD_SCRIPT_VERIFY_FLAGS : Z;
  (** [VerifyScript(scriptSig, scriptPubKey, flags,
      TransactionSignatureChecker(&tx, i), &serror)] *)
  VerifyScript :
    CScript → CScript → Z → CMutableTransaction * nat → World → bool * World;
}.

(** Number of inputs in the spending transaction, line 160. *)
Definition NUM_INPUTS : nat := Z.to_nat 11100.

(** Arithmetic on [unsigned int]. *)
Definition wrap32 (z : Z) : Z := (z mod 2 ^ 32)%Z.

(** What the setup of [benchmark_large_tx] leaves for the timed loop. *)
Record large_tx_state := {
  prevPubKey : CScript;
  orig_tx : CMutableTransaction;
  spending_tx : CMutableTransaction;
}.

(** Lines 171-175: the funding transaction. *)
Definition make_orig_tx (prevPubKey : CScript) : CMutableTransaction :=
  let m_orig_tx := CMutableTransaction_default in
  let m_orig_tx := set_vout m_orig_tx (resize 1 CTxOut_default (vout m_orig_tx)) in
  let m_orig_tx :=
    set_vout m_orig_tx
      (alter (λ o, {| nValue := 1000000; scriptPubKey := scriptPubKey o |})
             0 (vout m_orig_tx)) in
  set_vout m_orig_tx
    (alter (λ o, {| nValue := nValue o; scriptPubKey := prevPubKey |})
           0 (vout m_orig_tx)).

(** Lines 179-184: [num] inputs, each spending output 0 of [input_hash]. *)
Definition add_inputs (num : nat) (input_hash : uint256)
    (tx : CMutableTransaction) : CMutableTransaction :=
  fold_left (λ tx _, set_vin tx (vin tx ++ [CTxIn_new input_hash 0])) (seq 0 num) tx.

(** Lines 186-189: [SignSignature] on every input; its result is dropped. *)
Definition sign_inputs `{ScriptSystem} (num : nat) (keystore : CBasicKeyStore)
    (prevPubKey : CScript) (tx : CMutableTransaction) : M CMutableTransaction :=
  for_loop num
    (λ i tx, r ← call (SignSignature keystore prevPubKey tx i SIGHASH_ALL);
             mret r.2)
    tx.

(** Lines 191-200: the size window. *)
Definition check_size `{ScriptSystem} (tx : CMutableTransaction) : M unit :=
  let size := serialized_size tx in
  let error := (MAX_BLOCK_SIZE / 20)%Z in
  _ ← assert AssertSizeBelowUpper (size <? wrap32 (MAX_BLOCK_SIZE + error))%Z;
  assert AssertSizeAboveLower (size >? wrap32 (MAX_BLOCK_SIZE - error))%Z.

(** Lines 162-200: everything before the timer is started. *)
Definition large_tx_setup `{ScriptSystem} : M large_tx_state :=
  priv ← call (MakeNewKey false CKey_default);
  let pub := GetPubKey priv in
  let tempKeystore := AddKey priv CBasicKeyStore_default in
  let prevPubKey := GetScriptForDestination (GetID pub) in
  let orig_tx := make_orig_tx prevPubKey in
  let input_hash := GetTxid orig_tx in
  let spending_tx := add_inputs NUM_INPUTS input_hash CMutableTransaction_default in
  spending_tx ← sign_inputs NUM_INPUTS tempKeystore prevPubKey spending_tx;
  _ ← check_size spending_tx;
  mret {| prevPubKey := prevPubKey; orig_tx := orig_tx; spending_tx := spending_tx |}.

(** Lines 208-215: the verification of input [i] and its assertion.  Input
    [i] is in the vector unless [SignSignature] took it away; reading past
    the end is undefined in the source and gives the empty script here. *)
Definition verify_input `{ScriptSystem} (s : large_tx_state) (i : nat) : M unit :=
  let final_spending_tx := spending_tx s in
  ok ← call (VerifyScript
               (default [] (scriptSig <$> vin final_spending_tx !! i))
               (prevPubKey s)
               STANDARD_SCRIPT_VERIFY_FLAGS
               (final_spending_tx, i));
  assert (AssertInputVerifies i) ok.

Definition verify_inputs `{ScriptSystem} (num : nat) (s : large_tx_state) : M unit :=
  for_loop num (λ i _, verify_input s i) tt.

(** [benchmark_large_tx], lines 157-217. *)
Definition benchmark_large_tx `{ScriptSystem} : M double :=
  s ← large_tx_setup;
  tv_start ← timer_start;
  _ ← verify_inputs NUM_INPUTS s;
  r ← timer_stop tv_start;
  mret r.1.

(** *** Statements about runs *)

(** Modelled from the spec: [SignSignature] and [VerifyScript]
    (script/sign.h and script/interpreter.h, not under src/).  The
    specification requires of the signed transaction that each of its
    inputs verifies against the funding script.  The transaction is
    correctly signed when the unlocking script of each of its first [num]
    inputs satisfies the funding script under the standard flags, whenever
    it is checked. *)
Definition correctly_signed `{ScriptSystem} (num : nat) (s : large_tx_state) : Prop :=
  ∀ i, i < num → ∀ w,
    (VerifyScript (default [] (scriptSig <$> vin (spending_tx s) !! i))
       (prevPubKey s) STANDARD_SCRIPT_VERIFY_FLAGS (spending_tx s, i) w).1 = true.

(** Input [i] of the transaction fails verification, whenever it is
    checked. *)
Definition input_fails `{ScriptSystem} (s : large_tx_state) (i : nat) : Prop :=
  ∀ w,
    (VerifyScript (default [] (scriptSig <$> vin (spending_tx s) !! i))
       (prevPubKey s) STANDARD_SCRIPT_VERIFY_FLAGS (spending_tx s, i) w).1 = false.

(** [signed_upto k tx0 w0 tx w]: starting from [tx0] in world [w0],
    [SignSignature] has been called on the inputs [0 .. k-1], once each and
    in that order, with the funding script and [SIGHASH_ALL], leaving [tx]
    in world [w]. *)
Inductive signed_upto `{ScriptSystem} (keystore : CBasicKeyStore) (script : CScript)
    (tx0 : CMutableTransaction) (w0 : World)
  : nat → CMutableTransaction → World → Prop :=
| signed_none : signed_upto keystore script tx0 w0 0 tx0 w0
| signed_next k tx w ok tx' w' :
    signed_upto keystore script tx0 w0 k tx w →
    SignSignature keystore script tx k SIGHASH_ALL w = ((ok, tx'), w') →
    signed_upto keystore script tx0 w0 (S k) tx' w'.

(** The size window of lines 197-199 over the integers: strictly within
    one twentieth of the maximum block size. *)
Definition within_5_percent `{ScriptSystem} (size : Z) : Prop :=
  (MAX_BLOCK_SIZE - MAX_BLOCK_SIZE / 20 < size < MAX_BLOCK_SIZE + MAX_BLOCK_SIZE / 20)%Z.


(** The script system [SS] with the serialization replaced by one under
    which a transaction takes [size tx] bytes. *)
Definition with_serialized_size `{P : Platform} (size : CMutableTransaction → Z)
    (SS : ScriptSystem) : ScriptSystem :=
  {| CKey := CKey; CPubKey := CPubKey; CKeyID := CKeyID;
     CBasicKeyStore := CBasicKeyStore;
     CKey_default := CKey_default;
     CBasicKeyStore_default := CBasicKeyStore_default;
     MakeNewKey := MakeNewKey; GetPubKey := GetPubKey; GetID := GetID;
     AddKey := AddKey; GetScriptForDestination := GetScriptForDestination;
     GetTxid := GetTxid; SIGHASH_ALL := SIGHASH_ALL;
     SignSignature := SignSignature;
     serialized_size := size;
     MAX_BLOCK_SIZE := MAX_BLOCK_SIZE;
     STANDARD_SCRIPT_VERIFY_FLAGS := STANDARD_SCRIPT_VERIFY_FLAGS;
     VerifyScript := VerifyScript |}.



(** The reading "the candidate solutions are collected into the set": a run
    in which the solver offered a candidate ends with a non-empty set. *)
Definition collects_candidates `{PowEngine} (w : World) : Prop :=
  ∀ e accepted locals w',
    solve_equihash_body w = Returned (e, accepted, locals) w' →
    offered_candidates w ≠ [] → solns locals ≠ ∅.

(** *** Implementations of the interfaces for concrete runs *)

Module Fixtures.

(** A clock that returns the readings of a script, one per read. *)
Definition scripted_clock : Platform :=
  {| World := list timeval;
     gettimeofday := λ w,
       match w with
       | [] => ({| tv_sec := 0; tv_usec := 0 |}, [])
       | t :: w' => (t, w')
       end;
     sleep := λ _ w, w |}.

Definition at_time (sec usec : Z) : timeval := {| tv_sec := sec; tv_usec := usec |}.

(** A proof system whose proofs name the parameters, the public-key hash
    and the value fields they were made for; verification compares them,
    and accepts nothing at all when [accepts] is false.  The verifying key
    file can be read when [vk] holds, the proving key file when [pk]
    holds. *)
Definition proofs_and_keys (vk pk accepts : bool) : @ProofSystem scripted_clock :=
  {| ZCJoinSplit := Z; JSInput := unit; JSOutput := unit;
     JSDescription := Z * uint256 * (Z * Z);
     pzcashParams := 7%Z;
     JSInput_default := tt; JSOutput_default := tt;
     empty_tree_root := 0%Z;
     JSDescription_new := λ params pubKeyHash anchor ins outs vpub_old vpub_new w,
       ((params, pubKeyHash, (vpub_old, vpub_new)), w);
     Verify := λ jsdesc params pubKeyHash w,
       (accepts && (jsdesc.1.1 =? params)%Z && (jsdesc.1.2 =? pubKeyHash)%Z
        && (jsdesc.2.1 =? jsdesc.2.2)%Z, w);
     ZC_GetParamsDir := λ w, ("params", w);
     path_join := λ a b, (a +:+ "/" +:+ b)%string;
     Unopened := λ w, (0%Z, w);
     loadVerifyingKey := λ _ p w, (if vk then Some p else None, w);
     setProvingKeyPath := λ _ p w, (p, w);
     loadProvingKey := λ p w, (if pk then Some p else None, w);
     delete_params := λ _ w, w |}.

(** The same with both key files in place. *)
Definition naming_proofs (accepts : bool) : @ProofSystem scripted_clock :=
  proofs_and_keys true true accepts.

(** A proof-of-work engine that finds one candidate solution. *)
Definition one_candidate : @PowEngine scripted_clock :=
  {| CBlock := unit; CBlockHeader := unit; CChainParams := unit;
     eh_state := bytes;
     CBlock_default := tt;
     serialize_equihash_input := λ _, [];
     Params_MAIN := tt;
     EquihashN := λ _, 200%Z; EquihashK := λ _, 9%Z;
     GenesisBlock := λ _, tt; GetBlockHeader := λ _, tt;
     EhInitialiseState := λ _ _, [];
     crypto_generichash_blake2b_update := λ st b, st ++ b;
     randombytes_buf := λ k w, (replicate k 0%Z, w);
     eh_candidates := λ _ _ _, [[1; 2; 3]%Z];
     eh_search := λ _ _ _ w, w;
     CheckEquihashSolution := λ _ _ w, (false, w) |}.

(** Futures that become ready in launch order; task [i] reports [i]
    seconds. *)
Definition first_in_first_out : BoostThread :=
  {| future_get := λ i, Double.of_long (Z.of_nat i);
     wait_for_any := λ tasks, match tasks with [] => None | _ => Some 0 end |}.

(** Futures that hold the values [get] and become ready in the order
    [order]. *)
Definition completing_in (get : nat → double) (order : list nat) : BoostThread :=
  {| future_get := get; wait_for_any := wait_in_order order |}.

(** Task [i] reports [i] seconds. *)
Definition seconds (i : nat) : double := Double.of_long (Z.of_nat i).

(** Four tasks of which the last launched finishes first: task [i] is done
    at time [3 - i].  The runner reaches each of its waits at time 5, when
    all of them are done. *)
Definition done_before_waiting : Timing :=
  {| ready_at := λ i, 3 - i; called_at := λ _, 5 |}.

(** The same tasks with a runner that waits from time 0 on. *)
Definition waiting_from_the_start : Timing :=
  {| ready_at := λ i, 3 - i; called_at := λ _, 0 |}.

(** A script system in which an unlocking script is the list [[key; i]]
    for the key [key] and the input index [i], the funding script is
    [[key]], and the serialized size is 180 bytes per input.  Signing input
    [i] succeeds when [signs i] holds; otherwise it fails and leaves the
    transaction as it was. *)
Definition toy_scripts (signs : nat → bool) : @ScriptSystem scripted_clock :=
  {| CKey := Z; CPubKey := Z; CKeyID := Z; CBasicKeyStore := list Z;
     CKey_default := 0%Z; CBasicKeyStore_default := [];
     MakeNewKey := λ _ _ w, (42%Z, w);
     GetPubKey := λ k, k; GetID := λ k, k;
     AddKey := λ k ks, k :: ks;
     GetScriptForDestination := λ k, [k];
     GetTxid := λ tx, Z.of_nat (length (vout tx));
     SIGHASH_ALL := 1%Z;
     SignSignature := λ ks script tx i ht w,
       if signs i then
         ((true,
           set_vin tx (alter (λ txin, {| prevout := prevout txin;
                                         scriptSig := default 0%Z (head ks) :: [Z.of_nat i];
                                         nSequence := nSequence txin |})
                             i (vin tx))), w)
       else ((false, tx), w);
     serialized_size := λ tx, (180 * Z.of_nat (length (vin tx)))%Z;
     MAX_BLOCK_SIZE := 2000000%Z;
     STANDARD_SCRIPT_VERIFY_FLAGS := 0%Z;
     VerifyScript := λ sig script flags chk w,
       (match sig, script with
        | [k; i], [k'] => (k =? k')%Z && (i =? Z.of_nat chk.2)%Z
        | _, _ => false
        end, w) |}.

(** Input [i] of the toy transaction once the signing loop has passed it. *)
Definition toy_input (signs : nat → bool) (i : nat) : CTxIn :=
  if signs i then
    {| prevout := {| hash := 1%Z; n := 0%Z |};
       scriptSig := [42%Z; Z.of_nat i];
       nSequence := 4294967295%Z |}
  else CTxIn_new 1%Z 0%Z.

(** The state that the setup leaves in [toy_scripts signs]. *)
Definition toy_state (signs : nat → bool) : large_tx_state :=
  {| prevPubKey := [42%Z];
     orig_tx := make_orig_tx [42%Z];
     spending_tx := {| vin := toy_input signs <$> seq 0 NUM_INPUTS; vout := [] |} |}.

(** Every input is signed; every input but the sixth is signed; the first
    thousand inputs are not signed. *)
Definition all_signed (i : nat) : bool := true.
Definition sixth_unsigned (i : nat) : bool := negb (i =? 5).
Definition first_thousand_unsigned (i : nat) : bool := 1000 <=? i.

(** The bytes an input takes in a serialization that writes the unlocking
    script at its length: 41 bytes while the script is empty, 180 bytes
    with a signature in it. *)
Definition input_bytes (txin : CTxIn) : Z :=
  match scriptSig txin with [] => 41%Z | _ => 180%Z end.

Definition by_input_bytes (tx : CMutableTransaction) : Z :=
  foldr (λ txin size, (input_bytes txin + size)%Z) 0%Z (vin tx).

(** The toy script system with that serialization. *)
Definition short_when_unsigned (signs : nat → bool) : @ScriptSystem scripted_clock :=
  with_serialized_size by_input_bytes (toy_scripts signs).

End Fixtures.

(** ** Part II: theorems *)

(** *** Facts about binary64 arithmetic *)

Module DoubleFacts.
Import Double.
Local Open Scope Z_scope.

Lemma fexp_eq e : fexp prec emax e = Z.max (e - 53) (-1074).
Proof. reflexivity. Qed.

Lemma digits2_pos_bounds p :
  2 ^ (Z.pos (digits2_pos p) - 1) <= Z.pos p < 2 ^ Z.pos (digits2_pos p).
Proof.
  induction p as [p IH|p IH|]; cbn [digits2_pos].
  - rewrite Pos2Z.inj_succ.
    replace (Z.succ (Z.pos (digits2_pos p)) - 1) with (Z.succ (Z.pos (digits2_pos p) - 1)) by lia.
    rewrite !Z.pow_succ_r by lia. lia.
  - rewrite Pos2Z.inj_succ.
    replace (Z.succ (Z.pos (digits2_pos p)) - 1) with (Z.succ (Z.pos (digits2_pos p) - 1)) by lia.
    rewrite !Z.pow_succ_r by lia. lia.
  - cbn. lia.
Qed.

Lemma Zdigits2_bounds m :
  0 < m → 2 ^ (Zdigits2 m - 1) <= m < 2 ^ Zdigits2 m.
Proof. destruct m; try lia. intros _. apply digits2_pos_bounds. Qed.

Lemma Zdigits2_pos m : 0 < m → 0 < Zdigits2 m.
Proof. destruct m; cbn; lia. Qed.

Lemma Zdigits2_le m k : 0 < m → m < 2 ^ k → Zdigits2 m <= k.
Proof.
  intros Hm Hk. destruct (Zdigits2_bounds m Hm) as [Hlo _].
  destruct (Z_le_gt_dec (Zdigits2 m) k) as [|Hgt]; [done|].
  assert (2 ^ k <= 2 ^ (Zdigits2 m - 1)).
  { apply Z.pow_le_mono_r; [lia|]. lia. }
  lia.
Qed.

(** Shifting right. *)
Lemma shr_1_m mrs : 0 <= shr_m mrs → shr_m (shr_1 mrs) = shr_m mrs / 2.
Proof.
  destruct mrs as [m r s]; cbn [shr_m].
  destruct m as [|[p|p|]|p]; cbn [shr_1 shr_m]; intros; try reflexivity; try lia.
  - apply Z.div_unique with 1; lia.
  - apply Z.div_unique with 0; lia.
Qed.

Lemma iter_pos_shr_m p mrs :
  0 <= shr_m mrs →
  shr_m (SpecFloat.iter_pos shr_1 p mrs) = shr_m mrs / 2 ^ Z.pos p.
Proof.
  revert mrs. induction p as [p IH|p IH|]; intros mrs Hm; cbn [SpecFloat.iter_pos].
  - assert (H1 : 0 <= shr_m (shr_1 mrs)).
    { rewrite shr_1_m by done. apply Z.div_pos; lia. }
    assert (H2 : 0 <= shr_m (SpecFloat.iter_pos shr_1 p (shr_1 mrs))).
    { rewrite IH by done. apply Z.div_pos; lia. }
    rewrite IH by done. rewrite IH by done. rewrite shr_1_m by done.
    replace (Z.pos p~1) with (1 + Z.pos p + Z.pos p) by lia.
    rewrite !Z.pow_add_r by lia. rewrite !Z.div_div by lia.
    rewrite Z.pow_1_r. f_equal. lia.
  - assert (H2 : 0 <= shr_m (SpecFloat.iter_pos shr_1 p mrs)).
    { rewrite IH by done. apply Z.div_pos; lia. }
    rewrite IH by done. rewrite IH by done.
    replace (Z.pos p~0) with (Z.pos p + Z.pos p) by lia.
    rewrite !Z.pow_add_r by lia. rewrite !Z.div_div by lia.
    f_equal.
  - rewrite shr_1_m by done. reflexivity.
Qed.

Lemma shr_record_of_loc_m m l : shr_m (shr_record_of_loc m l) = m.
Proof. destruct l as [|[]]; reflexivity. Qed.

(** [shr_fexp] divides the mantissa by a power of two and raises the
    exponent by as much. *)
Lemma shr_fexp_spec m e l :
  0 <= m →
  let n := Z.max 0 (fexp prec emax (Zdigits2 m + e) - e) in
  let r := shr_fexp prec emax m e l in
  shr_m r.1 = m / 2 ^ n ∧ r.2 = e + n.
Proof.
  intros Hm n r. subst n r. unfold shr_fexp, shr.
  destruct (fexp prec emax (Zdigits2 m + e) - e) as [|p|p] eqn:Hn; cbn [fst snd].
  - rewrite shr_record_of_loc_m, Z.max_l by lia. cbn. rewrite Z.div_1_r. lia.
  - rewrite iter_pos_shr_m by (rewrite shr_record_of_loc_m; done).
    rewrite shr_record_of_loc_m, Z.max_r by lia. done.
  - rewrite shr_record_of_loc_m, Z.max_l by lia. cbn. rewrite Z.div_1_r. lia.
Qed.

Lemma round_nearest_even_bounds m l :
  m <= round_nearest_even m l <= m + 1.
Proof. destruct l as [|[]]; cbn; try lia. destruct (Z.even m); lia. Qed.

(** What [binary_round_aux] returns, in terms of the two shifts. *)
Lemma binary_round_aux_spec sx mx ex lx :
  0 <= mx →
  ∃ m1 e1 m2 m3 e3,
    m1 = mx / 2 ^ (e1 - ex) ∧ ex <= e1 ∧
    e1 = ex + Z.max 0 (fexp prec emax (Zdigits2 mx + ex) - ex) ∧
    m1 <= m2 <= m1 + 1 ∧
    m3 = m2 / 2 ^ (e3 - e1) ∧ e1 <= e3 ∧
    e3 = e1 + Z.max 0 (fexp prec emax (Zdigits2 m2 + e1) - e1) ∧
    binary_round_aux prec emax sx mx ex lx =
      match m3 with
      | Z0 => S754_zero sx
      | Zpos m => if e3 <=? emax - prec then S754_finite sx m e3 else S754_infinity sx
      | Zneg _ => S754_nan
      end.
Proof.
  intros Hm. unfold binary_round_aux.
  destruct (shr_fexp_spec mx ex lx Hm) as [Hm1 He1].
  destruct (shr_fexp prec emax mx ex lx) as [mrs' e'] eqn:E1. cbn [fst snd] in *.
  set (m2 := round_nearest_even (shr_m mrs') (loc_of_shr_record mrs')).
  assert (Hm1' : 0 <= shr_m mrs').
  { rewrite Hm1. apply Z.div_pos; [done|]. apply Z.pow_pos_nonneg; lia. }
  assert (Hm2 : 0 <= m2).
  { pose proof (round_nearest_even_bounds (shr_m mrs') (loc_of_shr_record mrs')). subst m2. lia. }
  destruct (shr_fexp_spec m2 e' loc_Exact Hm2) as [Hm3 He3].
  destruct (shr_fexp prec emax m2 e' loc_Exact) as [mrs'' e''] eqn:E2. cbn [fst snd] in *.
  exists (shr_m mrs'), e', m2, (shr_m mrs''), e''.
  split_and!; try lia.
  - rewrite Hm1. f_equal. f_equal. lia.
  - apply round_nearest_even_bounds.
  - apply round_nearest_even_bounds.
  - rewrite Hm3. f_equal. f_equal. lia.
  - reflexivity.
Qed.

Lemma binary_round_aux_signed sx mx ex lx :
  0 <= mx → signed sx (binary_round_aux prec emax sx mx ex lx).
Proof.
  intros Hm.
  destruct (binary_round_aux_spec sx mx ex lx Hm)
    as (m1 & e1 & m2 & m3 & e3 & Hm1 & ? & _ & Hm2 & Hm3 & ? & _ & ->).
  assert (0 <= m1) by (subst m1; apply Z.div_pos; [done|apply Z.pow_pos_nonneg; lia]).
  assert (0 <= m3) by (subst m3; apply Z.div_pos; [lia|apply Z.pow_pos_nonneg; lia]).
  destruct m3; try lia; [done|]. destruct (_ <=? _); done.
Qed.

Lemma pos_iter_xO m d : Z.pos (Pos.iter xO m d) = Z.pos m * 2 ^ Z.pos d.
Proof.
  induction d as [|d IH] using Pos.peano_ind.
  - cbn. lia.
  - rewrite Pos.iter_succ, Pos2Z.inj_succ, Z.pow_succ_r by lia.
    rewrite Pos2Z.inj_xO, IH. lia.
Qed.

Lemma shl_align_spec mx ex ez :
  (shl_align mx ex ez).2 = Z.min ex ez ∧
  Z.pos (shl_align mx ex ez).1 = Z.pos mx * 2 ^ (ex - Z.min ex ez).
Proof.
  unfold shl_align. destruct (ez - ex) as [|d|d] eqn:E; cbn [fst snd].
  - rewrite Z.min_l by lia. rewrite Z.sub_diag. lia.
  - rewrite Z.min_l by lia. rewrite Z.sub_diag. lia.
  - rewrite Z.min_r by lia. split; [done|].
    rewrite pos_iter_xO. f_equal. f_equal. lia.
Qed.

Lemma binary_round_signed sx mx ex :
  signed sx (binary_round prec emax sx mx ex).
Proof.
  unfold binary_round. destruct (shl_align _ _ _) as [mz ez].
  apply binary_round_aux_signed. lia.
Qed.

Lemma of_long_signed z : signed (z <? 0) (of_long z).
Proof.
  unfold of_long, binary_normalize. destruct z; [done| |]; apply binary_round_signed.
Qed.

Lemma shift_ge m e :
  0 < m → -1074 < e → 2 ^ (- e) <= m →
  let n := Z.max 0 (fexp prec emax (Zdigits2 m + e) - e) in
  0 < m / 2 ^ n ∧ 2 ^ (- (e + n)) <= m / 2 ^ n.
Proof.
  intros Hm He Hge n. subst n. rewrite fexp_eq.
  destruct (Zdigits2_bounds m Hm) as [Hlo Hhi].
  pose proof (Zdigits2_pos m Hm) as Hd.
  destruct (Z_le_gt_dec (Zdigits2 m) 53) as [Hs|Hs].
  - rewrite Z.max_l by lia. cbn [Z.pow]. rewrite Z.div_1_r.
    split; [done|]. rewrite Z.add_0_r. done.
  - replace (Z.max 0 (Z.max (Zdigits2 m + e - 53) (-1074) - e))
      with (Zdigits2 m - 53) by lia.
    set (n := Zdigits2 m - 53) in *.
    assert (Hn : 2 ^ n * 2 ^ 52 <= m).
    { rewrite <- Z.pow_add_r by lia. replace (n + 52) with (Zdigits2 m - 1) by lia. done. }
    assert (Hp : 0 < 2 ^ n) by (apply Z.pow_pos_nonneg; lia).
    assert (H52 : 2 ^ 52 <= m / 2 ^ n).
    { apply Z.div_le_lower_bound; [done|]. lia. }
    split; [lia|].
    destruct (Z_le_gt_dec (e + n) 0) as [Hle|Hgt].
    + apply Z.div_le_lower_bound; [done|].
      rewrite <- Z.pow_add_r by lia. replace (n + - (e + n)) with (- e) by lia. done.
    + rewrite Z.pow_neg_r by lia. lia.
Qed.

Lemma binary_round_aux_ge1 mx ex lx :
  0 < mx → -1074 < ex → 2 ^ (- ex) <= mx →
  ge1 (binary_round_aux prec emax false mx ex lx).
Proof.
  intros Hm He Hge.
  destruct (binary_round_aux_spec false mx ex lx ltac:(lia))
    as (m1 & e1 & m2 & m3 & e3 & Hm1 & He1 & He1' & Hm2 & Hm3 & He3 & He3' & ->).
  destruct (shift_ge mx ex Hm He Hge) as [H1 H2].
  replace (Z.max 0 _) with (e1 - ex) in H1, H2 by lia.
  replace (ex + (e1 - ex)) with e1 in H2 by lia.
  rewrite <- Hm1 in H1, H2.
  destruct (shift_ge m2 e1 ltac:(lia) ltac:(lia) ltac:(lia)) as [H3 H4].
  replace (Z.max 0 _) with (e3 - e1) in H3, H4 by lia.
  replace (e1 + (e3 - e1)) with e3 in H4 by lia.
  rewrite <- Hm3 in H3, H4.
  destruct m3; try lia. destruct (_ <=? _); cbn; done.
Qed.

Lemma of_long_ge1 z : 1 <= z → ge1 (of_long z).
Proof.
  intros Hz. destruct z as [|p|p]; try lia.
  unfold of_long, binary_normalize, binary_round.
  pose proof (shl_align_spec p 0 (fexp prec emax (Z.pos (digits2_pos p) + 0))) as [He Hmz].
  destruct (shl_align _ _ _) as [mz ez]. cbn [fst snd] in *.
  rewrite fexp_eq in He.
  apply binary_round_aux_ge1; [lia|lia|].
  rewrite fexp_eq in Hmz. rewrite Hmz, He.
  set (A := Z.min 0 _).
  replace (0 - A) with (- A) by lia.
  assert (0 < 2 ^ (- A)) by (apply Z.pow_pos_nonneg; lia).
  nia.
Qed.

Lemma Zdigits2_eq m k : 2 ^ (k - 1) <= m < 2 ^ k → 0 < m → Zdigits2 m = k.
Proof.
  intros [Hlo Hhi] Hm. pose proof (Zdigits2_le m k Hm Hhi).
  destruct (Zdigits2_bounds m Hm) as [_ Hd]. pose proof (Zdigits2_pos m Hm).
  destruct (Z_le_gt_dec k (Zdigits2 m)) as [|Hgt]; [lia|].
  assert (2 ^ Zdigits2 m <= 2 ^ (k - 1)) by (apply Z.pow_le_mono_r; lia).
  lia.
Qed.

Lemma shr_fexp_noshift m e l :
  0 < m → m < 2 ^ 53 → -1074 <= e →
  shr_fexp prec emax m e l = (shr_record_of_loc m l, e).
Proof.
  intros Hm Hlt He. unfold shr_fexp, shr.
  pose proof (Zdigits2_le m 53 Hm Hlt) as Hd.
  assert (Hn : fexp prec emax (Zdigits2 m + e) - e <= 0) by (rewrite fexp_eq; lia).
  destruct (fexp prec emax (Zdigits2 m + e) - e); [done|lia|done].
Qed.

(** A mantissa that fits is returned as it is. *)
Lemma binary_round_aux_exact sx m e :
  Z.pos m < 2 ^ 53 → -1074 <= e <= 971 →
  binary_round_aux prec emax sx (Z.pos m) e loc_Exact = S754_finite sx m e.
Proof.
  intros Hlt He. unfold binary_round_aux.
  rewrite shr_fexp_noshift by lia. cbn [shr_record_of_loc shr_m loc_of_shr_record round_nearest_even].
  rewrite shr_fexp_noshift by lia. cbn [shr_record_of_loc shr_m].
  replace (e <=? emax - prec) with true; [done|]. symmetry. apply Z.leb_le. unfold emax, prec. lia.
Qed.

(** The conversion of an integer below [2^53] in magnitude is exact. *)
Lemma of_long_small z :
  z ≠ 0 → Z.abs z < 2 ^ 53 →
  ∃ m e, of_long z = S754_finite (z <? 0) m e ∧ -52 <= e <= 0 ∧
         Z.pos m = Z.abs z * 2 ^ (- e) ∧ 2 ^ 52 <= Z.pos m < 2 ^ 53.
Proof.
  intros Hz Hlt.
  assert (∀ s p, Z.pos p < 2 ^ 53 →
    ∃ m e, binary_round prec emax s p 0 = S754_finite s m e ∧ -52 <= e <= 0 ∧
           Z.pos m = Z.pos p * 2 ^ (- e) ∧ 2 ^ 52 <= Z.pos m < 2 ^ 53) as Hround.
  { intros s p Hp. unfold binary_round.
    pose proof (shl_align_spec p 0 (fexp prec emax (Z.pos (digits2_pos p) + 0))) as [He Hmz].
    destruct (shl_align _ _ _) as [mz ez]. cbn [fst snd] in *.
    rewrite fexp_eq in He, Hmz.
    pose proof (Zdigits2_le (Z.pos p) 53 ltac:(lia) Hp) as Hd. cbn [Zdigits2] in Hd.
    destruct (digits2_pos_bounds p) as [Hlo Hhi].
    set (d := Z.pos (digits2_pos p)) in *.
    assert (Hez : ez = d - 53) by lia.
    replace (0 - Z.min 0 (Z.max (d + 0 - 53) (-1074))) with (53 - d) in Hmz by lia.
    assert (Hb : 2 ^ 52 <= Z.pos mz < 2 ^ 53).
    { assert (E52 : 2 ^ 52 = 2 ^ (d - 1) * 2 ^ (53 - d)).
      { rewrite <- Z.pow_add_r by lia. f_equal. lia. }
      assert (E53 : 2 ^ 53 = 2 ^ d * 2 ^ (53 - d)).
      { rewrite <- Z.pow_add_r by lia. f_equal. lia. }
      rewrite Hmz, E52, E53.
      assert (0 < 2 ^ (53 - d)) by (apply Z.pow_pos_nonneg; lia).
      nia. }
    exists mz, ez. rewrite binary_round_aux_exact by lia.
    split_and!; try done; try lia.
    rewrite Hmz. f_equal. f_equal. lia. }
  destruct z as [|p|p]; [done| |].
  - destruct (Hround false p ltac:(lia)) as (m & e & ? & ? & ? & ?). exists m, e. done.
  - destruct (Hround true p ltac:(lia)) as (m & e & ? & ? & ? & ?). exists m, e. done.
Qed.

Lemma SFdiv_core_binary_spec m1 e1 m2 e2 :
  0 < m1 → 0 < m2 →
  let e' := Z.min (fexp prec emax (Zdigits2 m1 + e1 - (Zdigits2 m2 + e2))) (e1 - e2) in
  ∃ l, SFdiv_core_binary prec emax m1 e1 m2 e2 =
         (m1 * 2 ^ (e1 - e2 - e') / m2, e', l).
Proof.
  intros Hm1 Hm2 e'. unfold SFdiv_core_binary. fold e'.
  assert (Hs : 0 <= e1 - e2 - e') by lia.
  assert (Hm' : match e1 - e2 - e' with
                | Z.pos _ => Z.shiftl m1 (e1 - e2 - e')
                | 0 => m1
                | Z.neg _ => 0
                end = m1 * 2 ^ (e1 - e2 - e')).
  { destruct (e1 - e2 - e') eqn:E; [lia| |lia].
    rewrite Z.shiftl_mul_pow2 by lia. done. }
  rewrite Hm'. unfold Z.div.
  destruct (Z.div_eucl _ m2) as [q r]. eauto.
Qed.

Lemma shift_lt m e :
  0 <= m → e <= 0 → m < 2 ^ (- e) →
  let n := Z.max 0 (fexp prec emax (Zdigits2 m + e) - e) in
  e + n <= 0 ∧ m / 2 ^ n < 2 ^ (- (e + n)).
Proof.
  intros Hm He Hlt n. subst n. rewrite fexp_eq.
  assert (Hd : Zdigits2 m <= - e).
  { destruct (Z.eq_dec m 0) as [->|]; [cbn; lia|]. apply Zdigits2_le; lia. }
  set (n := Z.max 0 _). assert (0 <= n ∧ e + n <= 0) as [Hn Hen] by lia.
  split; [done|].
  apply Z.div_lt_upper_bound; [apply Z.pow_pos_nonneg; lia|].
  rewrite <- Z.pow_add_r by lia. replace (n + - (e + n)) with (- e) by lia. done.
Qed.

Lemma shift_le m e :
  0 <= m → e <= 0 → m <= 2 ^ (- e) →
  let n := Z.max 0 (fexp prec emax (Zdigits2 m + e) - e) in
  e + n <= 0 ∧ m / 2 ^ n <= 2 ^ (- (e + n)).
Proof.
  intros Hm He Hle n. subst n. rewrite fexp_eq.
  assert (Hd : Zdigits2 m <= - e + 1).
  { destruct (Z.eq_dec m 0) as [->|]; [cbn; lia|]. apply Zdigits2_le; [lia|].
    rewrite Z.pow_add_r by lia. lia. }
  set (n := Z.max 0 _). assert (0 <= n ∧ e + n <= 0) as [Hn Hen] by lia.
  split; [done|].
  apply Z.div_le_upper_bound; [apply Z.pow_pos_nonneg; lia|].
  rewrite <- Z.pow_add_r by lia. replace (n + - (e + n)) with (- e) by lia. done.
Qed.

Lemma binary_round_aux_le1 sx mx ex lx :
  0 <= mx → ex <= 0 → mx < 2 ^ (- ex) →
  le1 (binary_round_aux prec emax sx mx ex lx).
Proof.
  intros Hm He Hlt.
  destruct (binary_round_aux_spec sx mx ex lx Hm)
    as (m1 & e1 & m2 & m3 & e3 & Hm1 & He1 & He1' & Hm2 & Hm3 & He3 & He3' & ->).
  destruct (shift_lt mx ex Hm He Hlt) as [H1 H2].
  replace (Z.max 0 _) with (e1 - ex) in H1, H2 by lia.
  replace (ex + (e1 - ex)) with e1 in H1, H2 by lia.
  rewrite <- Hm1 in H2.
  assert (0 <= m1) by (subst m1; apply Z.div_pos; [done|apply Z.pow_pos_nonneg; lia]).
  destruct (shift_le m2 e1 ltac:(lia) H1 ltac:(lia)) as [H3 H4].
  replace (Z.max 0 _) with (e3 - e1) in H3, H4 by lia.
  replace (e1 + (e3 - e1)) with e3 in H3, H4 by lia.
  rewrite <- Hm3 in H4.
  destruct m3 as [|m|m]; [done| |].
  - replace (e3 <=? emax - prec) with true; [done|].
    symmetry. apply Z.leb_le. unfold emax, prec. lia.
  - assert (0 <= Z.neg m); [|lia].
    rewrite Hm3. apply Z.div_pos; [lia|apply Z.pow_pos_nonneg; lia].
Qed.

Lemma of_long_million : of_long 1000000 = S754_finite false 8589934592000000 (-33).
Proof. reflexivity. Qed.

(** A negative count of microseconds above minus one million, divided by
    one million, has magnitude at most one. *)
Lemma div_million_le1 u :
  -1000000 < u < 0 → le1 (div (of_long u) (of_long 1000000)).
Proof.
  intros Hu.
  destruct (of_long_small u ltac:(lia) ltac:(lia)) as (mk & ek & -> & Hek & Hmk & Hb).
  rewrite of_long_million. unfold div. cbn [SFdiv].
  assert (Hek' : ek <= -33).
  { destruct (Z_le_gt_dec ek (-33)) as [|Hgt]; [done|]. exfalso.
    assert (2 ^ (- ek) <= 2 ^ 32) by (apply Z.pow_le_mono_r; lia).
    assert (0 < 2 ^ (- ek)) by (apply Z.pow_pos_nonneg; lia).
    assert (Z.abs u < 2 ^ 20) by lia.
    assert (2 ^ 52 = 2 ^ 20 * 2 ^ 32) by reflexivity. nia. }
  destruct (SFdiv_core_binary_spec (Z.pos mk) ek 8589934592000000 (-33)
              ltac:(lia) ltac:(lia)) as [l Hcore].
  rewrite (Zdigits2_eq (Z.pos mk) 53) in Hcore by (change (53 - 1) with 52; lia).
  change (Zdigits2 8589934592000000) with 53 in Hcore.
  rewrite fexp_eq in Hcore.
  replace (Z.min (Z.max (53 + ek - (53 + -33) - 53) (-1074)) (ek - -33))
    with (ek - 20) in Hcore by lia.
  replace (ek - -33 - (ek - 20)) with 53 in Hcore by lia.
  rewrite Hcore.
  apply binary_round_aux_le1.
  - apply Z.div_pos; [|lia]. apply Z.mul_nonneg_nonneg; [lia|apply Z.pow_nonneg; lia].
  - lia.
  - apply Z.div_lt_upper_bound; [lia|].
    rewrite Hmk.
    replace (- (ek - 20)) with (20 + - ek) by lia.
    rewrite Z.pow_add_r by lia.
    assert (0 < 2 ^ (- ek)) by (apply Z.pow_pos_nonneg; lia).
    assert (Z.abs u < 1000000) by lia.
    change 8589934592000000 with (1000000 * 2 ^ 33).
    assert (2 ^ 33 * 2 ^ 20 = 2 ^ 53) by reflexivity.
    nia.
Qed.

Lemma binary_normalize_signed m e :
  0 <= m → signed false (binary_normalize prec emax m e false).
Proof.
  intros Hm. destruct m; [done| |lia]. apply binary_round_signed.
Qed.

Lemma add_signed a b :
  signed false a → signed false b → signed false (add a b).
Proof.
  destruct a as [[]|[]| |[] ma ea], b as [[]|[]| |[] mb eb]; cbn; try done.
  intros _ _. apply binary_normalize_signed. lia.
Qed.

Lemma div_million_signed x :
  signed false x → signed false (div x (of_long 1000000)).
Proof.
  rewrite of_long_million.
  destruct x as [[]|[]| |[] mx ex]; cbn [signed]; try done.
  intros _. unfold div. cbn [SFdiv].
  destruct (SFdiv_core_binary_spec (Z.pos mx) ex 8589934592000000 (-33)
              ltac:(lia) ltac:(lia)) as [l ->].
  apply binary_round_aux_signed.
  apply Z.div_pos; [|lia]. apply Z.mul_nonneg_nonneg; [lia|apply Z.pow_nonneg; lia].
Qed.

Lemma add_ge1_le1 a b : ge1 a → le1 b → signed false (add a b).
Proof.
  destruct a as [[]|[]| |[] ma ea]; cbn [ge1]; try done;
    destruct b as [sb|sb| |sb mb eb]; cbn [le1]; try done.
  intros Ha [Heb Hb]. unfold add. cbn [SFadd].
  apply binary_normalize_signed.
  destruct (shl_align_spec ma ea (Z.min ea eb)) as [_ HA].
  destruct (shl_align_spec mb eb (Z.min ea eb)) as [_ HB].
  rewrite HA, HB.
  replace (Z.min ea (Z.min ea eb)) with (Z.min ea eb) by lia.
  replace (Z.min eb (Z.min ea eb)) with (Z.min ea eb) by lia.
  set (ez := Z.min ea eb).
  assert (Hez : ez <= eb ∧ ez <= ea ∧ ez <= 0) by lia.
  assert (HBle : Z.pos mb * 2 ^ (eb - ez) <= 2 ^ (- ez)).
  { replace (- ez) with (- eb + (eb - ez)) by lia.
    rewrite Z.pow_add_r by lia.
    apply Z.mul_le_mono_nonneg_r; [apply Z.pow_nonneg; lia|done]. }
  assert (HAge : 2 ^ (- ez) <= Z.pos ma * 2 ^ (ea - ez)).
  { destruct (Z_le_gt_dec ea 0) as [Hle|Hgt].
    - replace (- ez) with (- ea + (ea - ez)) by lia.
      rewrite Z.pow_add_r by lia.
      apply Z.mul_le_mono_nonneg_r; [apply Z.pow_nonneg; lia|done].
    - assert (2 ^ (- ez) <= 2 ^ (ea - ez)) by (apply Z.pow_le_mono_r; lia).
      assert (0 < 2 ^ (ea - ez)) by (apply Z.pow_pos_nonneg; lia).
      nia. }
  destruct sb; cbn [cond_Zopp]; lia.
Qed.

Lemma signed_nonneg x : signed false x → nonneg x.
Proof. destruct x as [[]|[]| |[] m e]; cbn; done. Qed.

Lemma of_long_zero : of_long 0 = zero.
Proof. reflexivity. Qed.

(** [double(dsec) + double(dusec) / double(1000000)] is a non-negative
    number when the seconds do not go back and the microseconds go back by
    less than a second, and not at all within the same second. *)
Lemma sum_nonneg dsec dusec :
  0 <= dsec → -1000000 < dusec →
  (dsec = 0 → 0 <= dusec) →
  nonneg (add (of_long dsec) (div (of_long dusec) (of_long 1000000))).
Proof.
  intros Hs Hu H0. apply signed_nonneg.
  destruct (Z_lt_ge_dec dusec 0) as [Hneg|Hpos].
  - apply add_ge1_le1.
    + apply of_long_ge1. lia.
    + apply div_million_le1. lia.
  - apply add_signed.
    + pose proof (of_long_signed dsec) as H.
      replace (dsec <? 0) with false in H; [done|]. symmetry. apply Z.ltb_ge. lia.
    + apply div_million_signed.
      pose proof (of_long_signed dusec) as H.
      replace (dusec <? 0) with false in H; [done|]. symmetry. apply Z.ltb_ge. lia.
Qed.

End DoubleFacts.

(** *** The timer *)

Ltac run := unfold timer_start, mbind, M_bind, mret, M_ret, call, assert; cbn beta iota.

Section Timer.
Context `{Platform}.

Lemma wrap64_small z : (- 2 ^ 63 <= z < 2 ^ 63)%Z → wrap64 z = z.
Proof.
  intros Hz. unfold wrap64.
  rewrite Z.mod_small by (change (2 ^ 64)%Z with (2 ^ 63 + 2 ^ 63)%Z; lia). lia.
Qed.

(** On timestamps of the wall clock no subtraction wraps around. *)
Lemma elapsed_wall_clock start end_ :
  wall_clock start → wall_clock end_ →
  elapsed start end_ = elapsed_formula start end_.
Proof.
  intros [Hs1 Hs2] [He1 He2]. unfold elapsed, elapsed_formula, long_sub.
  rewrite !wrap64_small; [done| |].
  - assert (1000000 < 2 ^ 63)%Z by done. lia.
  - lia.
Qed.

Lemma timer_stop_run tv_start w :
  timer_stop tv_start w =
    Returned (elapsed tv_start (gettimeofday w).1, tv_start) (gettimeofday w).2.
Proof. unfold timer_stop. run. destruct (gettimeofday w); done. Qed.

Lemma timer_start_run w :
  timer_start w = Returned (gettimeofday w).1 (gettimeofday w).2.
Proof. run. destruct (gettimeofday w); done. Qed.

Lemma timer_stop_reads start end_ w w' :
  wall_clock start → wall_clock end_ →
  gettimeofday w = (end_, w') →
  timer_stop start w = Returned (elapsed_formula start end_, start) w'.
Proof.
  intros Hs He Hclock. rewrite timer_stop_run, Hclock. cbn [fst snd].
  by rewrite elapsed_wall_clock.
Qed.

(** C3: for wall-clock timestamps [start] and [end_], [timer_stop] on
    [start], reading the clock at [end_], returns the double
    [(end.sec - start.sec) + (end.usec - start.usec) / 1_000_000] and
    leaves [start] as it was. *)
Theorem timer_stop_elapsed start end_ w w' :
  wall_clock start → wall_clock end_ →
  gettimeofday w = (end_, w') →
  timer_stop start w = Returned (elapsed_formula start end_, start) w'.
Proof.
  intros Hs He Hclock. unfold timer_stop. run. rewrite Hclock.
  f_equal. f_equal. by apply elapsed_wall_clock.
Qed.

(** C4: when the stop timestamp is not earlier than the start timestamp,
    the value [timer_stop] computes is a number that is at least zero. *)
Theorem timer_stop_nonneg start end_ w w' :
  wall_clock start → wall_clock end_ → not_earlier start end_ →
  gettimeofday w = (end_, w') →
  ∃ e, timer_stop start w = Returned (e, start) w' ∧ Double.nonneg e.
Proof.
  intros Hs He Hle Hclock. exists (elapsed_formula start end_).
  split; [by apply timer_stop_reads|].
  destruct Hs as [Hs1 Hs2], He as [He1 He2].
  apply DoubleFacts.sum_nonneg; destruct Hle as [Hlt|[Heq Hle]]; lia.
Qed.

End Timer.

Lemma timer_stop_elapsed_witness :
  let start := Fixtures.at_time 1500000000 750000 in
  let end_ := Fixtures.at_time 1500000002 250000 in
  wall_clock start ∧ wall_clock end_ ∧
  @timer_stop Fixtures.scripted_clock start [end_] =
    @Returned Fixtures.scripted_clock _ (elapsed_formula start end_, start) [].
Proof.
  intros start end_. split; [|split].
  - unfold wall_clock; simpl; lia.
  - unfold wall_clock; simpl; lia.
  - apply (@timer_stop_elapsed Fixtures.scripted_clock start end_ [end_] []).
    + unfold wall_clock; simpl; lia.
    + unfold wall_clock; simpl; lia.
    + reflexivity.
Defined.

Lemma timer_stop_nonneg_witness :
  let start := Fixtures.at_time 1500000000 750000 in
  let end_ := Fixtures.at_time 1500000002 250000 in
  ∃ e, @timer_stop Fixtures.scripted_clock start [end_] =
         @Returned Fixtures.scripted_clock _ (e, start) []
       ∧ Double.nonneg e.
Proof.
  intros start end_.
  apply (@timer_stop_nonneg Fixtures.scripted_clock start end_ [end_] []).
  - unfold wall_clock; simpl; lia.
  - unfold wall_clock; simpl; lia.
  - left; simpl; lia.
  - reflexivity.
Defined.

(** One and a half seconds between the two readings above. *)
Example elapsed_example :
  elapsed (Fixtures.at_time 1500000000 750000) (Fixtures.at_time 1500000002 250000)
  = S754_finite false 6755399441055744 (-52).
Proof. vm_compute. reflexivity. Qed.


(** *** The proof-system benchmarks *)

Section JoinSplit.
Context `{ProofSystem}.

Lemma create_joinsplit_body_run w0 :
  let '(tv_start, w1) := gettimeofday w0 in
  let '(jsdesc, w2) :=
    JSDescription_new pzcashParams uint256_default empty_tree_root
      [JSInput_default; JSInput_default] [JSOutput_default; JSOutput_default]
      0 0 w1 in
  let '(tv_end, w3) := gettimeofday w2 in
  let '(ok, w4) := Verify jsdesc pzcashParams uint256_default w3 in
  create_joinsplit_body w0 =
    if ok then Returned (elapsed tv_start tv_end, jsdesc) w4
    else Aborted AssertJoinSplitVerifies w4.
Proof.
  unfold create_joinsplit_body, timer_stop. run.
  destruct (gettimeofday w0) as [tv_start w1].
  destruct (JSDescription_new _ _ _ _ _ _ _ w1) as [jsdesc w2].
  destruct (gettimeofday w2) as [tv_end w3]. cbn [fst].
  destruct (Verify _ _ _ w3) as [[] w4]; done.
Qed.

(** C6: [benchmark_create_joinsplit] constructs a proof (two empty inputs,
    two empty outputs, zero value fields, the anchor of the empty tree),
    verifies that same proof and asserts the answer (line 90): when the
    answer is true the function returns the time that the construction
    took, and when it is false the run stops at the assertion and returns
    nothing.  A freshly constructed proof verifies, so the assertion holds
    and the function returns. *)
Theorem create_joinsplit_asserts_verification w0 :
  let '(tv_start, w1) := gettimeofday w0 in
  let '(jsdesc, w2) :=
    JSDescription_new pzcashParams uint256_default empty_tree_root
      [JSInput_default; JSInput_default] [JSOutput_default; JSOutput_default]
      0 0 w1 in
  let '(tv_end, w3) := gettimeofday w2 in
  let '(ok, w4) := Verify jsdesc pzcashParams uint256_default w3 in
  benchmark_create_joinsplit w0 =
    (if ok then Returned (elapsed tv_start tv_end) w4
     else Aborted AssertJoinSplitVerifies w4) ∧
  (fresh_proof_verifies →
   ok = true ∧
   benchmark_create_joinsplit w0 = Returned (elapsed tv_start tv_end) w4).
Proof.
  pose proof (create_joinsplit_body_run w0) as Hrun.
  unfold benchmark_create_joinsplit. run.
  destruct (gettimeofday w0) as [tv_start w1].
  destruct (JSDescription_new _ _ _ _ _ _ _ w1) as [jsdesc w2] eqn:Hnew.
  destruct (gettimeofday w2) as [tv_end w3].
  destruct (Verify _ _ _ w3) as [ok w4] eqn:Hverify.
  rewrite Hrun. split; [by destruct ok|].
  intros Hfresh. pose proof (Hfresh _ _ _ _ _ _ Hnew w3) as Hok.
  rewrite Hverify in Hok. cbn [fst] in Hok. by subst ok.
Qed.

Lemma verify_joinsplit_run joinsplit w0 :
  let '(tv_start, w1) := gettimeofday w0 in
  let '(ok, w2) := Verify joinsplit pzcashParams uint256_default w1 in
  let '(tv_end, w3) := gettimeofday w2 in
  benchmark_verify_joinsplit joinsplit w0 = Returned (elapsed tv_start tv_end) w3.
Proof.
  unfold benchmark_verify_joinsplit, timer_stop. run.
  destruct (gettimeofday w0) as [tv_start w1].
  destruct (Verify _ _ _ w1) as [ok w2].
  destruct (gettimeofday w2) as [tv_end w3]. done.
Qed.

End JoinSplit.

Lemma create_joinsplit_asserts_verification_witness :
  let t0 := Fixtures.at_time 10 0 in
  let t1 := Fixtures.at_time 12 500000 in
  @fresh_proof_verifies _ (Fixtures.naming_proofs true) ∧
  @benchmark_create_joinsplit _ (Fixtures.naming_proofs true) [t0; t1] =
    @Returned Fixtures.scripted_clock _ (elapsed t0 t1) [] ∧
  @benchmark_create_joinsplit _ (Fixtures.naming_proofs false) [t0; t1] =
    @Aborted Fixtures.scripted_clock _ AssertJoinSplitVerifies [].
Proof.
  intros t0 t1.
  assert (Hfresh : @fresh_proof_verifies _ (Fixtures.naming_proofs true)).
  { intros params pubKeyHash anchor w jsdesc w1 Hnew w'.
    injection Hnew as <- _. simpl. by rewrite !Z.eqb_refl. }
  split; [exact Hfresh|]. split.
  - exact (proj2 (proj2 (@create_joinsplit_asserts_verification _
                           (Fixtures.naming_proofs true) [t0; t1]) Hfresh)).
  - exact (proj1 (@create_joinsplit_asserts_verification _
                    (Fixtures.naming_proofs false) [t0; t1])).
Defined.

(** *** The proof-of-work benchmarks *)

Section Equihash.
Context `{PowEngine}.

Lemma offer_candidates_reject_all candidates l :
  offer_candidates reject_all candidates l = (false, l).
Proof. induction candidates as [|soln rest IH]; [done|]. cbn. exact IH. Qed.

Lemma solve_equihash_body_run w0 :
  let '(nonce, w1) := randombytes_buf 32 w0 in
  let n := EquihashN Params_MAIN in
  let k := EquihashK Params_MAIN in
  let eh :=
    crypto_generichash_blake2b_update
      (crypto_generichash_blake2b_update (EhInitialiseState n k)
         (serialize_equihash_input CBlock_default))
      nonce in
  let '(tv_start, w2) := gettimeofday w1 in
  let '(tv_end, w3) := gettimeofday (eh_search n k eh w2) in
  solve_equihash_body w0 =
    Returned (elapsed tv_start tv_end, false, {| solns := ∅ |}) w3.
Proof.
  unfold solve_equihash_body, timer_stop, EhOptimisedSolveUncancellable. run.
  destruct (randombytes_buf 32 w0) as [nonce w1].
  destruct (gettimeofday w1) as [tv_start w2].
  rewrite offer_candidates_reject_all. cbn [fst snd].
  destruct (gettimeofday _) as [tv_end w3]. done.
Qed.

(** C5, as the code has it: the predicate that [benchmark_solve_equihash]
    hands to the solver rejects every candidate and touches nothing, so the
    solver goes through all its candidates and reports that none was
    accepted; the set [solns] is declared and is still empty when the
    function returns. *)
Theorem solve_equihash_rejects_and_keeps_nothing w0 :
  (∀ soln l, reject_all soln l = (false, l)) ∧
  ∃ e w', solve_equihash_body w0 = Returned (e, false, {| solns := ∅ |}) w' ∧
          benchmark_solve_equihash w0 = Returned e w'.
Proof.
  split; [done|]. pose proof (solve_equihash_body_run w0) as Hrun.
  unfold benchmark_solve_equihash. run.
  destruct (randombytes_buf 32 w0) as [nonce w1].
  destruct (gettimeofday w1) as [tv_start w2].
  cbv zeta in Hrun.
  destruct (gettimeofday (eh_search _ _ _ w2)) as [tv_end w3].
  eexists _, _. rewrite Hrun. done.
Qed.

Lemma verify_equihash_run w0 :
  let header := GetBlockHeader (GenesisBlock Params_MAIN) in
  let '(tv_start, w1) := gettimeofday w0 in
  let '(ok, w2) := CheckEquihashSolution header Params_MAIN w1 in
  let '(tv_end, w3) := gettimeofday w2 in
  benchmark_verify_equihash w0 = Returned (elapsed tv_start tv_end) w3.
Proof.
  unfold benchmark_verify_equihash, timer_stop. run.
  destruct (gettimeofday w0) as [tv_start w1].
  destruct (CheckEquihashSolution _ _ w1) as [ok w2].
  destruct (gettimeofday w2) as [tv_end w3]. done.
Qed.

End Equihash.

(** C5, as stated, fails: the engine of [Fixtures.one_candidate] offers a
    candidate solution, and the set is empty when the run ends. *)
Lemma solve_equihash_collects_nothing :
  ¬ @collects_candidates _ Fixtures.one_candidate
      [Fixtures.at_time 10 0; Fixtures.at_time 40 0].
Proof.
  intros Hcollects.
  refine (Hcollects (elapsed (Fixtures.at_time 10 0) (Fixtures.at_time 40 0))
            false {| solns := ∅ |} [] _ _ _).
  - reflexivity.
  - discriminate.
  - reflexivity.
Qed.

(** C9: [benchmark_verify_joinsplit] and [benchmark_verify_equihash] return
    the time between their two clock reads whatever the verification
    answered: for every description and every world, and for either answer,
    the run returns and no assertion is involved. *)
Theorem verify_benchmarks_ignore_verdict :
  (∀ `(PS : ProofSystem) (joinsplit : JSDescription) (w0 : World),
     let '(tv_start, w1) := gettimeofday w0 in
     let '(ok, w2) := Verify joinsplit pzcashParams uint256_default w1 in
     let '(tv_end, w3) := gettimeofday w2 in
     benchmark_verify_joinsplit joinsplit w0 = Returned (elapsed tv_start tv_end) w3) ∧
  (∀ `(PE : PowEngine) (w0 : World),
     let '(tv_start, w1) := gettimeofday w0 in
     let '(ok, w2) :=
       CheckEquihashSolution (GetBlockHeader (GenesisBlock Params_MAIN)) Params_MAIN w1 in
     let '(tv_end, w3) := gettimeofday w2 in
     benchmark_verify_equihash w0 = Returned (elapsed tv_start tv_end) w3).
Proof.
  split.
  - intros P PS joinsplit w0. apply verify_joinsplit_run.
  - intros P PE w0. apply verify_equihash_run.
Qed.

(** *** The concurrent runner *)

Section Runner.
Context `{BoostThread}.

Lemma gather_step tasks ret :
  gather tasks ret =
    match wait_for_any tasks with
    | None => Some ret
    | Some it =>
        match tasks !! it with
        | Some f => gather (delete it tasks) (ret ++ [future_get f])
        | None => None
        end
    end.
Proof.
  funelim (gather tasks ret);
    repeat match goal with
      | E : wait_for_any ?t = _ |- context [wait_for_any ?t] => rewrite E
      | E : ?t !! ?i = _ |- context [?t !! ?i] => rewrite E
      end; done.
Qed.

(** Under the contract of [wait_for_any] the loop ends, and it has appended
    the value of every pending future exactly once. *)
Lemma gather_collects_all :
  wait_for_any_contract →
  ∀ tasks ret, ∃ r, gather tasks ret = Some r ∧ r ≡ₚ ret ++ (future_get <$> tasks).
Proof.
  intros Hcontract tasks.
  remember (length tasks) as k eqn:Hk. revert tasks Hk.
  induction k as [k IH] using lt_wf_ind. intros tasks Hk ret.
  rewrite gather_step. pose proof (Hcontract tasks) as Hit.
  destruct (wait_for_any tasks) as [it|].
  - destruct (lookup_lt_is_Some_2 tasks it Hit) as [f Hf]. rewrite Hf.
    destruct (IH (length (delete it tasks))
                 ltac:(rewrite length_delete by eauto; lia)
                 (delete it tasks) eq_refl
                 (ret ++ [future_get f])) as (r & Hr & Hperm).
    exists r. split; [done|]. etransitivity; [exact Hperm|].
    rewrite <- app_assoc. apply Permutation_app_head. symmetry.
    change ([future_get f] ++ (future_get <$> delete it tasks))
      with (future_get <$> f :: delete it tasks).
    apply fmap_Permutation. by apply delete_Permutation.
  - subst tasks. exists ret. by rewrite app_nil_r.
Qed.

Lemma length_launch (nThreads : Z) :
  (0 <= nThreads)%Z → Z.of_nat (length (launch nThreads)) = nThreads.
Proof. intros Hn. unfold launch. rewrite length_seq. lia. Qed.

(** C1: for a concurrency degree [nThreads >= 0] the runner returns
    exactly [nThreads] durations; for [nThreads = 0] it returns the empty
    sequence. *)
Theorem threaded_returns_n_durations (nThreads : Z) :
  wait_for_any_contract → (0 <= nThreads)%Z →
  (∃ ret, benchmark_solve_equihash_threaded nThreads = Some ret ∧
          Z.of_nat (length ret) = nThreads) ∧
  benchmark_solve_equihash_threaded 0 = Some [].
Proof.
  intros Hcontract Hn. unfold benchmark_solve_equihash_threaded. split.
  - destruct (gather_collects_all Hcontract (launch nThreads) []) as (r & Hr & Hperm).
    exists r. split; [done|].
    rewrite Hperm, length_app, length_fmap. cbn [length]. by apply length_launch.
  - destruct (gather_collects_all Hcontract (launch 0) []) as (r & Hr & Hperm).
    rewrite Hr. f_equal. cbn in Hperm. by apply Permutation_nil_r.
Qed.

End Runner.

Lemma first_in_first_out_contract : @wait_for_any_contract Fixtures.first_in_first_out.
Proof. intros [|f tasks]; cbn; [done|lia]. Qed.

Lemma threaded_returns_n_durations_witness :
  @wait_for_any_contract Fixtures.first_in_first_out ∧ (0 <= 4)%Z ∧
  ((∃ ret, @benchmark_solve_equihash_threaded Fixtures.first_in_first_out 4 = Some ret ∧
           Z.of_nat (length ret) = 4%Z) ∧
   @benchmark_solve_equihash_threaded Fixtures.first_in_first_out 0 = Some []).
Proof.
  split; [exact first_in_first_out_contract|]. split; [lia|].
  apply (@threaded_returns_n_durations Fixtures.first_in_first_out 4).
  - exact first_in_first_out_contract.
  - lia.
Defined.

(** *** The runner in time *)

Section RunnerInTime.
Context (get : nat → double) (T : Timing).

Lemma earliest_le f rest i : i ∈ f :: rest → earliest T f rest ≤ ready_at T i.
Proof.
  unfold earliest. induction rest as [|g rest IH]; cbn [fmap list_fmap foldr].
  - intros ->%list_elem_of_singleton. done.
  - intros [->|[->|Hi]%elem_of_cons]%elem_of_cons.
    + pose proof (IH ltac:(left)). lia.
    + lia.
    + pose proof (IH ltac:(by right)). lia.
Qed.

Lemma earliest_attained f rest :
  ∃ i, i ∈ f :: rest ∧ ready_at T i = earliest T f rest.
Proof.
  unfold earliest. induction rest as [|g rest (i & Hi & Heq)]; cbn [fmap list_fmap foldr].
  - exists f. split; [left|done].
  - destruct (Nat.min_spec (ready_at T g) (foldr Nat.min (ready_at T f) (ready_at T <$> rest)))
      as [[_ ->]|[_ ->]].
    + exists g. split; [right; left|done].
    + exists i. split; [|done].
      apply elem_of_cons in Hi as [->|Hi]; [left|right; by right].
Qed.

(** A wait on a non-empty range returns a future of the range that is ready
    when the call returns. *)
Lemma wait_in_time_next f rest :
  ∃ p i, wait_in_time T (f :: rest) = Some p ∧ (f :: rest) !! p = Some i ∧
         ready_at T i ≤ Nat.max (called_at T (f :: rest)) (earliest T f rest).
Proof.
  unfold wait_in_time.
  set (woken := Nat.max (called_at T (f :: rest)) (earliest T f rest)).
  destruct (list_find (λ i, ready_at T i ≤ woken) (f :: rest)) as [[p i]|] eqn:Hfind.
  - apply list_find_Some in Hfind as (Hp & Hi & _). exists p, i. done.
  - apply list_find_None in Hfind. rewrite Forall_forall in Hfind.
    destruct (earliest_attained f rest) as (i & Hi & Heq).
    destruct (Hfind i Hi). lia.
Qed.

Lemma in_time_contract : @wait_for_any_contract (in_time get T).
Proof.
  intros [|f rest]; [done|].
  change (@wait_for_any (in_time get T) (f :: rest)) with (wait_in_time T (f :: rest)).
  destruct (wait_in_time_next f rest) as (p & i & -> & Hp & _).
  by eapply lookup_lt_Some.
Qed.

(** With a runner that is waiting at each completion, every round collects
    a task that finished no later than the tasks still pending. *)
Lemma gather_waiting :
  waits_for_each_completion T →
  ∀ tasks ret, ∃ order,
    order ≡ₚ tasks ∧
    StronglySorted (λ i j, ready_at T i ≤ ready_at T j) order ∧
    @gather (in_time get T) tasks ret = Some (ret ++ (get <$> order)).
Proof.
  intros Hwaits tasks.
  remember (length tasks) as k eqn:Hk. revert tasks Hk.
  induction k as [k IH] using lt_wf_ind. intros tasks Hk ret.
  rewrite gather_step.
  change (@wait_for_any (in_time get T) tasks) with (wait_in_time T tasks).
  change (@future_get (in_time get T)) with get.
  destruct tasks as [|f rest].
  - exists []. cbn. rewrite app_nil_r. split; [done|]. split; [constructor|done].
  - destruct (wait_in_time_next f rest) as (p & i & -> & Hp & Hready).
    rewrite Hp.
    destruct (IH (length (delete p (f :: rest)))
                 ltac:(rewrite length_delete by eauto; subst k; cbn; lia)
                 (delete p (f :: rest)) eq_refl
                 (ret ++ [get i])) as (order & Hperm & Hsorted & Hrun).
    exists (i :: order). split; [|split].
    + rewrite Hperm. symmetry. by apply delete_Permutation.
    + constructor; [done|]. rewrite Forall_forall. intros j Hj.
      assert (Hin : j ∈ f :: rest).
      { rewrite (delete_Permutation (f :: rest) p i Hp). right. by rewrite <- Hperm. }
      pose proof (earliest_le f rest j Hin). pose proof (Hwaits f rest). lia.
    + rewrite Hrun, <- app_assoc. done.
Qed.

(** With tasks that have all finished before each wait, every round
    collects the pending task that was launched first. *)
Lemma gather_finished :
  finished_before_each_wait T →
  ∀ tasks ret, @gather (in_time get T) tasks ret = Some (ret ++ (get <$> tasks)).
Proof.
  intros Hdone tasks. induction tasks as [|f rest IH]; intros ret; rewrite gather_step.
  - cbn. by rewrite app_nil_r.
  - change (@wait_for_any (in_time get T) (f :: rest)) with (wait_in_time T (f :: rest)).
    change (@future_get (in_time get T)) with get.
    unfold wait_in_time. cbn [list_find].
    rewrite decide_True.
    2: { pose proof (Hdone (f :: rest) f ltac:(left)). lia. }
    cbn. rewrite IH, <- app_assoc. done.
Qed.

End RunnerInTime.

(** C2, as the code has it: the runner returns the duration of every
    launched task once, in the order in which its waits collected them.
    Each wait returns the first pending task, in launch order, that is
    ready by then.  When the runner is already waiting each time a task
    finishes, that is the order of completion, the fastest-finishing task
    first; when the tasks have all finished before the runner waits for
    them, it is the order of launch. *)
Theorem threaded_order_follows_the_waits (get : nat → double) (T : Timing) (nThreads : Z) :
  (∃ ret, @benchmark_solve_equihash_threaded (in_time get T) nThreads = Some ret ∧
          ret ≡ₚ get <$> launch nThreads) ∧
  (waits_for_each_completion T →
   ∃ ret, @benchmark_solve_equihash_threaded (in_time get T) nThreads = Some ret ∧
          in_completion_order get T nThreads ret) ∧
  (finished_before_each_wait T →
   @benchmark_solve_equihash_threaded (in_time get T) nThreads
   = Some (get <$> launch nThreads)).
Proof.
  unfold benchmark_solve_equihash_threaded. split; [|split].
  - destruct (@gather_collects_all (in_time get T) (in_time_contract get T)
                (launch nThreads) []) as (r & Hr & Hperm).
    exists r. split; [done|]. by rewrite Hperm.
  - intros Hwaits.
    destruct (gather_waiting get T Hwaits (launch nThreads) [])
      as (order & Hperm & Hsorted & Hrun).
    exists (get <$> order). split; [done|]. by exists order.
  - intros Hdone. by rewrite gather_finished.
Qed.

Lemma done_before_waiting_finished : finished_before_each_wait Fixtures.done_before_waiting.
Proof. intros pending i _. cbn. lia. Qed.

(** C2, as stated, fails: of the four tasks of
    [Fixtures.done_before_waiting] the last launched finishes first, all
    have finished when the runner first waits, and the durations come back
    in launch order. *)
Lemma threaded_not_in_completion_order :
  ∃ ret,
    @benchmark_solve_equihash_threaded
      (in_time Fixtures.seconds Fixtures.done_before_waiting) 4 = Some ret ∧
    ¬ in_completion_order Fixtures.seconds Fixtures.done_before_waiting 4 ret.
Proof.
  exists (Fixtures.seconds <$> [0; 1; 2; 3]). split.
  - unfold benchmark_solve_equihash_threaded.
    by rewrite (gather_finished _ _ done_before_waiting_finished).
  - intros (order & Hperm & Hsorted & Heq).
    change (launch 4) with [0; 1; 2; 3] in Hperm.
    destruct order as [|a [|b order]]; [done|done|].
    assert (Ha : a ∈ [0; 1; 2; 3]) by (rewrite <- Hperm; left).
    assert (Hb : b ∈ [0; 1; 2; 3]) by (rewrite <- Hperm; right; left).
    injection Heq as Ha0 Hb1 _.
    apply StronglySorted_inv in Hsorted as [_ Hfirst].
    apply Forall_cons in Hfirst as [Hab _]. cbn in Hab.
    repeat (apply elem_of_cons in Ha as [->|Ha]); [| | | |by apply elem_of_nil in Ha];
      try (vm_compute in Ha0; discriminate);
      repeat (apply elem_of_cons in Hb as [->|Hb]); try (by apply elem_of_nil in Hb);
      try (vm_compute in Hb1; discriminate); lia.
Qed.

Lemma waiting_from_the_start_waits : waits_for_each_completion Fixtures.waiting_from_the_start.
Proof. intros f rest. cbn. lia. Qed.

Lemma threaded_order_follows_the_waits_witness :
  waits_for_each_completion Fixtures.waiting_from_the_start ∧
  finished_before_each_wait Fixtures.done_before_waiting ∧
  (∃ ret,
     @benchmark_solve_equihash_threaded
       (in_time Fixtures.seconds Fixtures.waiting_from_the_start) 4 = Some ret ∧
     in_completion_order Fixtures.seconds Fixtures.waiting_from_the_start 4 ret) ∧
  @benchmark_solve_equihash_threaded
    (in_time Fixtures.seconds Fixtures.done_before_waiting) 4
  = Some (Fixtures.seconds <$> launch 4).
Proof.
  split; [exact waiting_from_the_start_waits|].
  split; [exact done_before_waiting_finished|]. split.
  - exact (proj1 (proj2 (threaded_order_follows_the_waits Fixtures.seconds
                           Fixtures.waiting_from_the_start 4))
             waiting_from_the_start_waits).
  - exact (proj2 (proj2 (threaded_order_follows_the_waits Fixtures.seconds
                           Fixtures.done_before_waiting 4))
             done_before_waiting_finished).
Defined.

(** *** The large transaction *)

Section Loops.
Context `{Platform}.

Lemma for_from_S {St} (body : nat → St → M St) i k s w :
  for_from i (S k) body s w =
    match body i s w with
    | Returned s' w' => for_from (S i) k body s' w'
    | Aborted which w' => Aborted which w'
    | Thrown w' => Thrown w'
    end.
Proof. reflexivity. Qed.


End Loops.

Section LargeTx.
Context `{ScriptSystem}.

Lemma make_orig_tx_eq script :
  make_orig_tx script =
    {| vin := []; vout := [{| nValue := 1000000; scriptPubKey := script |}] |}.
Proof. reflexivity. Qed.

Lemma add_inputs_eq num input_hash tx :
  add_inputs num input_hash tx =
    {| vin := vin tx ++ replicate num (CTxIn_new input_hash 0); vout := vout tx |}.
Proof.
  unfold add_inputs. generalize 0 at 1. revert tx.
  induction num as [|num IH]; intros [vi vo] start; cbn [seq fold_left].
  - cbn. by rewrite app_nil_r.
  - rewrite IH. cbn. by rewrite <- app_assoc.
Qed.

Lemma NUM_INPUTS_eq : Z.of_nat NUM_INPUTS = 11100%Z.
Proof. unfold NUM_INPUTS. lia. Qed.

(** The signing loop never stops early: it calls [SignSignature] on every
    index in turn, whatever the calls return. *)
Lemma sign_from_signed keystore script tx0 w0 i k tx w :
  signed_upto keystore script tx0 w0 i tx w →
  ∃ tx' w',
    for_from i k
      (λ i tx, r ← call (SignSignature keystore script tx i SIGHASH_ALL); mret r.2)
      tx w = Returned tx' w' ∧
    signed_upto keystore script tx0 w0 (i + k) tx' w'.
Proof.
  revert i tx w. induction k as [|k IH]; intros i tx w Hupto.
  - exists tx, w. rewrite Nat.add_0_r. done.
  - cbn [for_from]. run.
    destruct (SignSignature keystore script tx i SIGHASH_ALL w) as [[ok tx1] w1] eqn:Hsign.
    cbn [snd].
    destruct (IH (S i) tx1 w1) as (tx' & w' & Hrun & Hupto').
    { by eapply signed_next. }
    exists tx', w'. split; [done|]. by rewrite <- Nat.add_succ_comm.
Qed.

Lemma sign_inputs_signed num keystore script tx w :
  ∃ tx' w',
    sign_inputs num keystore script tx w = Returned tx' w' ∧
    signed_upto keystore script tx w num tx' w'.
Proof. apply (sign_from_signed keystore script tx w 0 num tx w). constructor. Qed.

Lemma check_size_run tx w :
  (0 <= MAX_BLOCK_SIZE)%Z → (MAX_BLOCK_SIZE + MAX_BLOCK_SIZE / 20 < 2 ^ 32)%Z →
  (within_5_percent (serialized_size tx) ∧ check_size tx w = Returned tt w) ∨
  (¬ within_5_percent (serialized_size tx) ∧
   (check_size tx w = Aborted AssertSizeBelowUpper w ∨
    check_size tx w = Aborted AssertSizeAboveLower w)).
Proof.
  intros Hmax Hfit. unfold check_size, within_5_percent, wrap32. run.
  assert (0 <= MAX_BLOCK_SIZE / 20 <= MAX_BLOCK_SIZE)%Z as [Hlo Hhi].
  { split; [apply Z.div_pos; lia|]. apply Z.div_le_upper_bound; lia. }
  rewrite !Z.mod_small by lia.
  destruct (Z.ltb_spec (serialized_size tx) (MAX_BLOCK_SIZE + MAX_BLOCK_SIZE / 20)).
  - destruct (Z.gtb_spec (serialized_size tx) (MAX_BLOCK_SIZE - MAX_BLOCK_SIZE / 20)).
    + left. split; [lia|done].
    + right. split; [lia|]. by right.
  - right. split; [lia|]. by left.
Qed.


Lemma verify_input_run (s : large_tx_state) i w :
  verify_input s i w =
    let '(ok, w1) :=
      VerifyScript (default [] (scriptSig <$> vin (spending_tx s) !! i))
        (prevPubKey s) STANDARD_SCRIPT_VERIFY_FLAGS (spending_tx s, i) w in
    if ok then Returned tt w1 else Aborted (AssertInputVerifies i) w1.
Proof. unfold verify_input. run. destruct (VerifyScript _ _ _ _ w) as [[] w1]; done. Qed.




(** What [benchmark_large_tx] does once its setup has returned. *)
Lemma benchmark_large_tx_after_setup w0 s w1 :
  large_tx_setup w0 = Returned s w1 →
  benchmark_large_tx w0 =
    let '(tv_start, w2) := gettimeofday w1 in
    match verify_inputs NUM_INPUTS s w2 with
    | Returned _ w3 =>
        let '(tv_end, w4) := gettimeofday w3 in
        Returned (elapsed tv_start tv_end) w4
    | Aborted which w3 => Aborted which w3
    | Thrown w3 => Thrown w3
    end.
Proof.
  intros Hsetup. unfold benchmark_large_tx, timer_stop. run. rewrite Hsetup.
  destruct (gettimeofday w1) as [tv_start w2].
  destruct (verify_inputs NUM_INPUTS s w2) as [[] w3|which w3|w3]; [|done|done].
  destruct (gettimeofday w3) as [tv_end w4]. done.
Qed.

Lemma benchmark_large_tx_setup_aborted w0 which w :
  large_tx_setup w0 = Aborted which w → benchmark_large_tx w0 = Aborted which w.
Proof. intros Hsetup. unfold benchmark_large_tx. run. by rewrite Hsetup. Qed.


End LargeTx.

Section LargeTxClaims.
Context `{SS : ScriptSystem}.

(** C7: [benchmark_large_tx] builds a funding transaction with exactly one
    output and a spending transaction with exactly 11,100 inputs, each
    spending output 0 of the funding transaction; [SignSignature] is called
    on each input, once and in order; the size of the signed transaction
    must lie strictly within one twentieth of [MAX_BLOCK_SIZE] of it, and
    otherwise the run stops at one of the two size assertions. *)
Theorem large_tx_construction w0 :
  (0 <= MAX_BLOCK_SIZE)%Z → (MAX_BLOCK_SIZE + MAX_BLOCK_SIZE / 20 < 2 ^ 32)%Z →
  let '(priv, w1) := MakeNewKey false CKey_default w0 in
  let keystore := AddKey priv CBasicKeyStore_default in
  let script := GetScriptForDestination (GetID (GetPubKey priv)) in
  let funding := make_orig_tx script in
  let unsigned :=
    add_inputs NUM_INPUTS (GetTxid funding) CMutableTransaction_default in
  vout funding = [{| nValue := 1000000; scriptPubKey := script |}] ∧
  Z.of_nat (length (vin unsigned)) = 11100%Z ∧
  (∀ txin, txin ∈ vin unsigned →
     prevout txin = {| hash := GetTxid funding; n := 0 |}) ∧
  ∃ signed w2,
    signed_upto keystore script unsigned w1 NUM_INPUTS signed w2 ∧
    (within_5_percent (serialized_size signed) →
     large_tx_setup w0 =
       Returned {| prevPubKey := script; orig_tx := funding;
                   spending_tx := signed |} w2) ∧
    (¬ within_5_percent (serialized_size signed) →
     ∃ which,
       (which = AssertSizeBelowUpper ∨ which = AssertSizeAboveLower) ∧
       benchmark_large_tx w0 = Aborted which w2).
Proof.
  intros Hmax Hfit.
  destruct (MakeNewKey false CKey_default w0) as [priv w1] eqn:Hkey.
  cbv zeta. split; [done|]. split; [|split].
  - rewrite add_inputs_eq. cbn [vin CMutableTransaction_default app].
    rewrite length_replicate. apply NUM_INPUTS_eq.
  - intros txin. rewrite add_inputs_eq. cbn [vin CMutableTransaction_default app].
    intros [-> _]%elem_of_replicate. done.
  - destruct (sign_inputs_signed NUM_INPUTS (AddKey priv CBasicKeyStore_default)
                (GetScriptForDestination (GetID (GetPubKey priv)))
                (add_inputs NUM_INPUTS
                   (GetTxid (make_orig_tx
                               (GetScriptForDestination (GetID (GetPubKey priv)))))
                   CMutableTransaction_default) w1)
      as (signed & w2 & Hsign & Hupto).
    exists signed, w2. split; [done|].
    assert (Hsetup : large_tx_setup w0 =
              match check_size signed w2 with
              | Returned _ w3 =>
                  Returned {| prevPubKey := GetScriptForDestination (GetID (GetPubKey priv));
                              orig_tx := make_orig_tx
                                (GetScriptForDestination (GetID (GetPubKey priv)));
                              spending_tx := signed |} w3
              | Aborted which w3 => Aborted which w3
              | Thrown w3 => Thrown w3
              end).
    { unfold large_tx_setup. run. rewrite Hkey, Hsign.
      destruct (check_size signed w2); done. }
    destruct (check_size_run signed w2 Hmax Hfit) as [[Hin Hrun]|[Hout Hrun]].
    + split; [|done]. intros _. by rewrite Hsetup, Hrun.
    + split; [done|]. intros _.
      destruct Hrun as [Hrun|Hrun]; rewrite Hrun in Hsetup;
        eexists; (split; [|by apply benchmark_large_tx_setup_aborted]); auto.
Qed.





End LargeTxClaims.

Lemma large_tx_construction_witness :
  let SS := Fixtures.toy_scripts Fixtures.all_signed in
  let w0 : list timeval := [Fixtures.at_time 10 0; Fixtures.at_time 20 0] in
  (0 <= @MAX_BLOCK_SIZE _ SS)%Z ∧
  (@MAX_BLOCK_SIZE _ SS + @MAX_BLOCK_SIZE _ SS / 20 < 2 ^ 32)%Z ∧
  vout (make_orig_tx [42%Z]) = [{| nValue := 1000000; scriptPubKey := [42%Z] |}] ∧
  Z.of_nat (length (vin (add_inputs NUM_INPUTS 1%Z CMutableTransaction_default))) = 11100%Z.
Proof.
  intros SS w0.
  assert (H1 : (0 <= @MAX_BLOCK_SIZE _ SS)%Z)
    by (unfold SS, Fixtures.toy_scripts; simpl; lia).
  assert (H2 : (@MAX_BLOCK_SIZE _ SS + @MAX_BLOCK_SIZE _ SS / 20 < 2 ^ 32)%Z)
    by (vm_compute; reflexivity).
  pose proof (@large_tx_construction _ SS w0 H1 H2) as Hthm.
  split; [exact H1|]. split; [exact H2|].
  split; [exact (proj1 Hthm)|exact (proj1 (proj2 Hthm))].
Defined.

Lemma for_from_pure `{Platform} {St} (body : nat → St → M St) (g : St → nat → St) i k s w :
  (∀ j s' w', body j s' w' = Returned (g s' j) w') →
  for_from i k body s w = Returned (fold_left g (seq i k) s) w.
Proof.
  intros Hbody. revert i s. induction k as [|k IH]; intros i s; [done|].
  rewrite for_from_S, Hbody. cbn [seq fold_left]. apply IH.
Qed.

Lemma toy_sign_all (signs : nat → bool) k num vo :
  k ≤ num →
  fold_left
    (λ tx i,
       if signs i then
         set_vin tx (alter (λ txin, {| prevout := prevout txin;
                                       scriptSig := [42%Z; Z.of_nat i];
                                       nSequence := nSequence txin |})
                           i (vin tx))
       else tx)
    (seq 0 k) {| vin := replicate num (CTxIn_new 1%Z 0%Z); vout := vo |}
  = {| vin := (Fixtures.toy_input signs <$> seq 0 k)
                ++ replicate (num - k) (CTxIn_new 1%Z 0%Z);
       vout := vo |}.
Proof.
  induction k as [|k IH]; intros Hk.
  - cbn. by rewrite Nat.sub_0_r.
  - rewrite seq_S, fold_left_app, IH by lia. cbn [fold_left Nat.add].
    rewrite fmap_app, <- app_assoc. cbn [fmap list_fmap app].
    replace (num - k) with (S (num - S k)) by lia.
    assert (Hk' : Fixtures.toy_input signs k =
                  if signs k then
                    {| prevout := {| hash := 1%Z; n := 0%Z |};
                       scriptSig := [42%Z; Z.of_nat k];
                       nSequence := 4294967295%Z |}
                  else CTxIn_new 1%Z 0%Z) by done.
    rewrite Hk'. destruct (signs k); [|done].
    cbn [set_vin vin vout]. f_equal.
    rewrite alter_app_r_alt by (rewrite length_fmap, length_seq; lia).
    rewrite length_fmap, length_seq, Nat.sub_diag. done.
Qed.

Lemma toy_setup_run (signs : nat → bool) w0 :
  @large_tx_setup _ (Fixtures.toy_scripts signs) w0 =
  @Returned Fixtures.scripted_clock _ (Fixtures.toy_state signs) w0.
Proof.
  unfold large_tx_setup. run. cbn [MakeNewKey Fixtures.toy_scripts].
  unfold sign_inputs, for_loop.
  rewrite (for_from_pure _
             (λ tx i,
                if signs i then
                  set_vin tx (alter (λ txin, {| prevout := prevout txin;
                                                scriptSig := [42%Z; Z.of_nat i];
                                                nSequence := nSequence txin |})
                                    i (vin tx))
                else tx)).
  2: { intros j tx w. run. cbn. by destruct (signs j). }
  rewrite add_inputs_eq. cbn [vin vout CMutableTransaction_default app].
  cbn [GetTxid GetScriptForDestination GetID GetPubKey Fixtures.toy_scripts].
  rewrite make_orig_tx_eq. cbn [vout length].
  change (Z.of_nat 1) with 1%Z.
  rewrite (toy_sign_all signs NUM_INPUTS NUM_INPUTS []) by done.
  rewrite Nat.sub_diag, app_nil_r.
  unfold check_size, wrap32. run.
  cbn [serialized_size MAX_BLOCK_SIZE Fixtures.toy_scripts vin].
  rewrite length_fmap, length_seq, NUM_INPUTS_eq. done.
Qed.

(** In the toy script system a signed input verifies and an unsigned one
    does not. *)
Lemma toy_verdict (signs : nat → bool) i w :
  i < NUM_INPUTS →
  (@VerifyScript _ (Fixtures.toy_scripts signs)
     (default [] (scriptSig <$> vin (spending_tx (Fixtures.toy_state signs)) !! i))
     (prevPubKey (Fixtures.toy_state signs))
     (@STANDARD_SCRIPT_VERIFY_FLAGS _ (Fixtures.toy_scripts signs))
     (spending_tx (Fixtures.toy_state signs), i) w).1 = signs i.
Proof.
  intros Hi. cbn [Fixtures.toy_state spending_tx prevPubKey vin].
  rewrite list_lookup_fmap, lookup_seq_lt by done. cbn.
  unfold Fixtures.toy_input. destruct (signs i); cbn; [|done].
  by rewrite Z.eqb_refl.
Qed.

Lemma input_bytes_const (f : nat → CTxIn) (c : Z) a k :
  (∀ i, a ≤ i < a + k → Fixtures.input_bytes (f i) = c) →
  foldr (λ txin size, (Fixtures.input_bytes txin + size)%Z) 0%Z (f <$> seq a k)
  = (c * Z.of_nat k)%Z.
Proof.
  revert a. induction k as [|k IH]; intros a Hc; [cbn; lia|].
  cbn [seq fmap list_fmap foldr]. rewrite IH by (intros i Hi; apply Hc; lia).
  rewrite Hc by lia. lia.
Qed.

Lemma foldr_input_bytes_app l1 l2 :
  foldr (λ txin size, (Fixtures.input_bytes txin + size)%Z) 0%Z (l1 ++ l2)
  = (foldr (λ txin size, (Fixtures.input_bytes txin + size)%Z) 0%Z l1
     + foldr (λ txin size, (Fixtures.input_bytes txin + size)%Z) 0%Z l2)%Z.
Proof. induction l1 as [|x l1 IH]; cbn [app foldr]; [done|]. rewrite IH. lia. Qed.

Lemma short_size :
  Fixtures.by_input_bytes
    {| vin := Fixtures.toy_input Fixtures.first_thousand_unsigned <$> seq 0 NUM_INPUTS;
       vout := [] |} = 1859000%Z.
Proof.
  unfold Fixtures.by_input_bytes. cbn [vin].
  replace NUM_INPUTS with (1000 + Z.to_nat 10100) by (unfold NUM_INPUTS; lia).
  rewrite seq_app, fmap_app, foldr_input_bytes_app.
  rewrite (input_bytes_const _ 41), (input_bytes_const _ 180).
  - lia.
  - intros i Hi. unfold Fixtures.toy_input, Fixtures.first_thousand_unsigned.
    destruct (Nat.leb_spec 1000 i); [done|lia].
  - intros i Hi. unfold Fixtures.toy_input, Fixtures.first_thousand_unsigned.
    destruct (Nat.leb_spec 1000 i); [lia|done].
Qed.

(** The setup with the serialization of [Fixtures.short_when_unsigned]:
    the signing is that of the toy script system, whatever it achieves. *)
Lemma short_setup_signs (signs : nat → bool) w0 :
  @large_tx_setup _ (Fixtures.short_when_unsigned signs) w0 =
  match @check_size _ (Fixtures.short_when_unsigned signs)
          (spending_tx (Fixtures.toy_state signs)) w0 with
  | Returned _ w => @Returned Fixtures.scripted_clock _ (Fixtures.toy_state signs) w
  | Aborted which w => Aborted which w
  | Thrown w => Thrown w
  end.
Proof.
  unfold large_tx_setup. run.
  cbn [MakeNewKey Fixtures.short_when_unsigned with_serialized_size Fixtures.toy_scripts].
  unfold sign_inputs, for_loop.
  rewrite (for_from_pure _
             (λ tx i,
                if signs i then
                  set_vin tx (alter (λ txin, {| prevout := prevout txin;
                                                scriptSig := [42%Z; Z.of_nat i];
                                                nSequence := nSequence txin |})
                                    i (vin tx))
                else tx)).
  2: { intros j tx w. run. cbn. by destruct (signs j). }
  rewrite add_inputs_eq. cbn [vin vout CMutableTransaction_default app].
  cbn [GetTxid GetScriptForDestination GetID GetPubKey
       Fixtures.short_when_unsigned with_serialized_size Fixtures.toy_scripts].
  rewrite make_orig_tx_eq. cbn [vout length].
  change (Z.of_nat 1) with 1%Z.
  rewrite (toy_sign_all signs NUM_INPUTS NUM_INPUTS []) by done.
  rewrite Nat.sub_diag, app_nil_r. reflexivity.
Qed.

Lemma short_setup_run w0 :
  @large_tx_setup _ (Fixtures.short_when_unsigned Fixtures.first_thousand_unsigned) w0 =
  @Aborted Fixtures.scripted_clock _ AssertSizeAboveLower w0.
Proof.
  rewrite short_setup_signs.
  unfold check_size, wrap32. run.
  cbn [serialized_size MAX_BLOCK_SIZE Fixtures.short_when_unsigned
       with_serialized_size Fixtures.toy_scripts Fixtures.toy_state spending_tx].
  rewrite short_size. done.
Qed.

(** The run of the benchmark stops there, with both clock readings
    unread. *)
Example short_benchmark_run :
  @benchmark_large_tx _ (Fixtures.short_when_unsigned Fixtures.first_thousand_unsigned)
    [Fixtures.at_time 10 0; Fixtures.at_time 20 0] =
  @Aborted Fixtures.scripted_clock _ AssertSizeAboveLower
    [Fixtures.at_time 10 0; Fixtures.at_time 20 0].
Proof. apply benchmark_large_tx_setup_aborted, short_setup_run. Qed.



(** *** More on the timer: single fields and a clock that steps back *)

Module DoubleMirror.
Import Double.
Local Open Scope Z_scope.

Lemma binary_round_aux_opp s m e l :
  binary_round_aux prec emax (negb s) m e l =
  SFopp (binary_round_aux prec emax s m e l).
Proof.
  unfold binary_round_aux.
  destruct (shr_fexp prec emax m e l) as [mrs' e'].
  destruct (shr_fexp prec emax _ e' loc_Exact) as [mrs'' e''].
  destruct (shr_m mrs''); [done| |done]. by destruct (_ <=? _).
Qed.

Lemma binary_round_opp s m e :
  binary_round prec emax (negb s) m e = SFopp (binary_round prec emax s m e).
Proof.
  unfold binary_round. destruct (shl_align _ _ _) as [mz ez].
  apply binary_round_aux_opp.
Qed.

Lemma of_long_opp z : z ≠ 0 → of_long (- z) = opp (of_long z).
Proof.
  intros Hz. destruct z as [|p|p]; [done| |]; unfold of_long, opp; cbn [Z.opp binary_normalize].
  - apply (binary_round_opp false).
  - apply (binary_round_opp true).
Qed.

Lemma of_long_mirrored z : mirrored (of_long z) (of_long (- z)).
Proof.
  destruct (Z.eq_dec z 0) as [->|Hz]; [by right|]. left. by apply of_long_opp.
Qed.

Lemma div_million_opp x :
  div (opp x) (of_long 1000000) = opp (div x (of_long 1000000)).
Proof.
  rewrite DoubleFacts.of_long_million. unfold div, opp.
  destruct x as [sx|sx| |sx mx ex]; cbn [SFopp SFdiv]; try done.
  - by destruct sx.
  - by destruct sx.
  - destruct (SFdiv_core_binary prec emax (Z.pos mx) ex 8589934592000000 (-33))
      as [[mz ez] lz].
    rewrite !xorb_false_r. apply binary_round_aux_opp.
Qed.

Lemma div_million_zero : div zero (of_long 1000000) = zero.
Proof. reflexivity. Qed.

Lemma div_million_mirrored u :
  mirrored (div (of_long u) (of_long 1000000)) (div (of_long (- u)) (of_long 1000000)).
Proof.
  destruct (Z.eq_dec u 0) as [->|Hu]; [by right|]. left.
  rewrite of_long_opp by done. apply div_million_opp.
Qed.

Lemma nonneg_opp r : nonneg r → nonpos (opp r).
Proof. by destruct r as [[]|[]| |[] m e]. Qed.

Lemma nonneg_opp_inv r : nonneg (opp r) → nonpos r.
Proof. by destruct r as [[]|[]| |[] m e]. Qed.

Lemma add_opp x y :
  nonneg (add x y) → nonpos (add (opp x) (opp y)).
Proof.
  destruct x as [[]|[]| |sx mx ex], y as [[]|[]| |sy my ey];
    try (by cbn); try (by destruct sx); try (by destruct sy).
  unfold add, opp. cbn [SFopp SFadd].
  set (A := Z.pos (shl_align mx ex (Z.min ex ey)).1).
  set (B := Z.pos (shl_align my ey (Z.min ex ey)).1).
  replace (cond_Zopp (negb sx) A + cond_Zopp (negb sy) B)
    with (- (cond_Zopp sx A + cond_Zopp sy B))
    by (destruct sx, sy; cbn [cond_Zopp negb]; lia).
  destruct (cond_Zopp sx A + cond_Zopp sy B) as [|p|p]; cbn [Z.opp binary_normalize].
  - done.
  - intros Hfwd. pose proof (binary_round_opp false p (Z.min ex ey)) as E.
    cbn [negb] in E. change (- Z.pos p) with (Z.neg p). cbn [binary_normalize].
    rewrite E. by apply nonneg_opp.
  - intros Hfwd. pose proof (binary_round_opp false p (Z.min ex ey)) as E.
    cbn [negb] in E. change (- Z.neg p) with (Z.pos p). cbn [binary_normalize].
    rewrite E in Hfwd. by apply nonneg_opp_inv.
Qed.

Lemma add_mirrored x y x' y' :
  mirrored x x' → mirrored y y' →
  nonneg (add x y) → nonpos (add x' y').
Proof.
  intros [->|[-> ->]] [->|[-> ->]].
  - apply add_opp.
  - destruct x as [[]|[]| |[] mx ex]; by cbn.
  - destruct y as [[]|[]| |[] my ey]; by cbn.
  - done.
Qed.

(** Adding zero to a converted integer, or a quotient that is not negative
    to zero, changes nothing. *)
Lemma add_of_long_zero z : add (of_long z) zero = of_long z.
Proof.
  destruct (Z.eq_dec z 0) as [->|Hz]; [done|].
  assert (Hnz : match of_long z with S754_zero true | S754_nan => False | _ => True end).
  { destruct (Z_lt_ge_dec z 0) as [Hneg|Hpos].
    - replace z with (- - z) by lia. rewrite of_long_opp by lia.
      pose proof (DoubleFacts.of_long_ge1 (- z) ltac:(lia)) as Hge.
      by destruct (of_long (- z)) as [[]|[]| |[] m e].
    - pose proof (DoubleFacts.of_long_ge1 z ltac:(lia)) as Hge.
      by destruct (of_long z) as [[]|[]| |[] m e]. }
  by destruct (of_long z) as [[]|[]| |[] m e].
Qed.

Lemma add_zero_signed y : signed false y → add zero y = y.
Proof. by destruct y as [[]|[]| |[] m e]. Qed.

End DoubleMirror.

Module DoubleStrict.
Import Double DoubleFacts DoubleMirror.
Local Open Scope Z_scope.

Lemma shift_pos m e :
  0 < m → -1074 <= e →
  let n := Z.max 0 (fexp prec emax (Zdigits2 m + e) - e) in
  0 < m / 2 ^ n.
Proof.
  intros Hm He n. subst n. rewrite fexp_eq.
  destruct (Zdigits2_bounds m Hm) as [Hlo Hhi].
  destruct (Z_le_gt_dec (Zdigits2 m) 53) as [Hs|Hs].
  - rewrite Z.max_l by lia. cbn [Z.pow]. by rewrite Z.div_1_r.
  - replace (Z.max 0 (Z.max (Zdigits2 m + e - 53) (-1074) - e))
      with (Zdigits2 m - 53) by lia.
    set (n := Zdigits2 m - 53) in *.
    assert (Hn : 2 ^ n * 2 ^ 52 <= m).
    { rewrite <- Z.pow_add_r by lia. replace (n + 52) with (Zdigits2 m - 1) by lia. done. }
    assert (Hp : 0 < 2 ^ n) by (apply Z.pow_pos_nonneg; lia).
    assert (H52 : 2 ^ 52 <= m / 2 ^ n) by (apply Z.div_le_lower_bound; [done|lia]).
    lia.
Qed.

Lemma binary_round_aux_positive mx ex lx :
  0 < mx → -1074 <= ex →
  positive (binary_round_aux prec emax false mx ex lx).
Proof.
  intros Hm He.
  destruct (binary_round_aux_spec false mx ex lx ltac:(lia))
    as (m1 & e1 & m2 & m3 & e3 & Hm1 & He1 & He1' & Hm2 & Hm3 & He3 & He3' & ->).
  pose proof (shift_pos mx ex Hm He) as H1. cbv zeta in H1.
  replace (Z.max 0 _) with (e1 - ex) in H1 by lia.
  rewrite <- Hm1 in H1.
  pose proof (shift_pos m2 e1 ltac:(lia) ltac:(lia)) as H3. cbv zeta in H3.
  replace (Z.max 0 _) with (e3 - e1) in H3 by lia.
  rewrite <- Hm3 in H3.
  destruct m3; try lia. by destruct (_ <=? _).
Qed.

Lemma binary_round_aux_representable sx mx ex lx :
  0 <= mx → -1074 <= ex →
  representable (binary_round_aux prec emax sx mx ex lx).
Proof.
  intros Hm He.
  destruct (binary_round_aux_spec sx mx ex lx Hm)
    as (m1 & e1 & m2 & m3 & e3 & Hm1 & He1 & He1' & Hm2 & Hm3 & He3 & He3' & ->).
  destruct m3; [done| |done]. destruct (_ <=? _); cbn; [lia|done].
Qed.

Lemma binary_round_positive p e :
  -1074 <= e → positive (binary_round prec emax false p e).
Proof.
  intros He. unfold binary_round.
  pose proof (shl_align_spec p e (fexp prec emax (Z.pos (digits2_pos p) + e))) as [Hez Hmz].
  destruct (shl_align _ _ _) as [mz ez]. cbn [fst snd] in *.
  rewrite fexp_eq in Hez.
  apply binary_round_aux_positive; lia.
Qed.

Lemma binary_round_representable s p e :
  -1074 <= e → representable (binary_round prec emax s p e).
Proof.
  intros He. unfold binary_round.
  pose proof (shl_align_spec p e (fexp prec emax (Z.pos (digits2_pos p) + e))) as [Hez Hmz].
  destruct (shl_align _ _ _) as [mz ez]. cbn [fst snd] in *.
  rewrite fexp_eq in Hez.
  apply binary_round_aux_representable; lia.
Qed.

Lemma of_long_representable z : representable (of_long z).
Proof.
  destruct z as [|p|p]; [done| |]; apply binary_round_representable; lia.
Qed.

Lemma ge1_positive x : ge1 x → positive x.
Proof. by destruct x as [[]|[]| |[] m e]. Qed.

(** The quotient by one million of a count of microseconds that is not
    zero and below one million in magnitude: the division as a rounding of
    an integer quotient. *)
Lemma div_million_core u :
  u ≠ 0 → -1000000 < u < 1000000 →
  ∃ q e l,
    div (of_long u) (of_long 1000000) = binary_round_aux prec emax (u <? 0) q e l ∧
    0 < q ∧ -72 <= e <= -53 ∧ 1000000 * q <= 999999 * 2 ^ (- e).
Proof.
  intros Hu0 Hu.
  destruct (of_long_small u ltac:(lia) ltac:(lia)) as (mk & ek & -> & Hek & Hmk & Hb).
  rewrite of_long_million. unfold div. cbn [SFdiv].
  assert (Hek' : ek <= -33).
  { destruct (Z_le_gt_dec ek (-33)) as [|Hgt]; [done|]. exfalso.
    assert (2 ^ (- ek) <= 2 ^ 32) by (apply Z.pow_le_mono_r; lia).
    assert (0 < 2 ^ (- ek)) by (apply Z.pow_pos_nonneg; lia).
    assert (Z.abs u < 2 ^ 20) by lia.
    assert (2 ^ 52 = 2 ^ 20 * 2 ^ 32) by reflexivity. nia. }
  destruct (SFdiv_core_binary_spec (Z.pos mk) ek 8589934592000000 (-33)
              ltac:(lia) ltac:(lia)) as [l Hcore].
  rewrite (Zdigits2_eq (Z.pos mk) 53) in Hcore by (change (53 - 1) with 52; lia).
  change (Zdigits2 8589934592000000) with 53 in Hcore.
  rewrite fexp_eq in Hcore.
  replace (Z.min (Z.max (53 + ek - (53 + -33) - 53) (-1074)) (ek - -33))
    with (ek - 20) in Hcore by lia.
  replace (ek - -33 - (ek - 20)) with 53 in Hcore by lia.
  rewrite Hcore, xorb_false_r.
  set (q := Z.pos mk * 2 ^ 53 / 8589934592000000).
  exists q, (ek - 20), l. split; [done|].
  assert (Hq : q * 8589934592000000 <= Z.pos mk * 2 ^ 53).
  { rewrite Z.mul_comm. apply Z.mul_div_le. lia. }
  assert (Hq0 : 0 < q).
  { apply Z.div_str_pos. split; [lia|].
    assert (2 ^ 52 * 2 ^ 53 <= Z.pos mk * 2 ^ 53) by (apply Z.mul_le_mono_nonneg_r; lia).
    assert (8589934592000000 <= 2 ^ 52 * 2 ^ 53) by (vm_compute; discriminate).
    lia. }
  split; [done|]. split; [lia|].
  replace (- (ek - 20)) with (20 + - ek) by lia.
  rewrite Z.pow_add_r by lia.
  assert (0 < 2 ^ (- ek)) by (apply Z.pow_pos_nonneg; lia).
  assert (Z.abs u <= 999999) by lia.
  rewrite Hmk in Hq.
  set (X := Z.abs u * 2 ^ (- ek)) in *.
  assert (HX : X <= 999999 * 2 ^ (- ek)) by (subst X; nia).
  change 8589934592000000 with (1000000 * 8589934592) in Hq.
  change (2 ^ 53) with (1048576 * 8589934592) in Hq.
  change (2 ^ 20) with 1048576.
  lia.
Qed.

Lemma binary_round_aux_lt1 sx mx ex lx :
  0 <= mx → -1074 <= ex <= -20 → 1000000 * mx <= 999999 * 2 ^ (- ex) →
  lt1 (binary_round_aux prec emax sx mx ex lx).
Proof.
  intros Hm He Hb.
  destruct (binary_round_aux_spec sx mx ex lx Hm)
    as (m1 & e1 & m2 & m3 & e3 & Hm1 & He1 & He1' & Hm2 & Hm3 & He3 & He3' & ->).
  assert (Hpex : 0 < 2 ^ (- ex)) by (apply Z.pow_pos_nonneg; lia).
  assert (Hlt : mx < 2 ^ (- ex)) by lia.
  destruct (shift_lt mx ex Hm ltac:(lia) Hlt) as [H1 H2].
  replace (Z.max 0 _) with (e1 - ex) in H1, H2 by lia.
  replace (ex + (e1 - ex)) with e1 in H1, H2 by lia.
  assert (Hd : Zdigits2 mx <= - ex).
  { destruct (Z.eq_dec mx 0) as [->|]; [cbn; lia|]. apply Zdigits2_le; lia. }
  rewrite fexp_eq in He1'.
  assert (He1b : e1 <= -20) by lia.
  assert (Hp1 : 0 < 2 ^ (e1 - ex)) by (apply Z.pow_pos_nonneg; lia).
  assert (Hm1' : m1 * 2 ^ (e1 - ex) <= mx).
  { rewrite Hm1, Z.mul_comm. apply Z.mul_div_le. done. }
  assert (Hm1nn : 0 <= m1) by (subst m1; apply Z.div_pos; lia).
  assert (Hsplit : 2 ^ (- ex) = 2 ^ (- e1) * 2 ^ (e1 - ex)).
  { rewrite <- Z.pow_add_r by lia. f_equal. lia. }
  assert (Hb1 : 1000000 * m1 <= 999999 * 2 ^ (- e1)).
  { rewrite Hsplit in Hb.
    assert ((1000000 * m1) * 2 ^ (e1 - ex) <= (999999 * 2 ^ (- e1)) * 2 ^ (e1 - ex)) by nia.
    by apply Z.mul_le_mono_pos_r in H. }
  assert (H20 : 2 ^ 20 <= 2 ^ (- e1)) by (apply Z.pow_le_mono_r; lia).
  assert (Hm2lt : m2 < 2 ^ (- e1)).
  { assert (1000000 < 2 ^ 20) by (vm_compute; reflexivity). nia. }
  destruct (shift_lt m2 e1 ltac:(lia) ltac:(lia) Hm2lt) as [H3 H4].
  replace (Z.max 0 _) with (e3 - e1) in H3, H4 by lia.
  replace (e1 + (e3 - e1)) with e3 in H3, H4 by lia.
  rewrite <- Hm3 in H4.
  destruct m3 as [|m|m]; [done| |].
  - replace (e3 <=? emax - prec) with true.
    + cbn. split; [lia|done].
    + symmetry. apply Z.leb_le. unfold emax, prec. lia.
  - assert (0 <= Z.neg m); [|lia].
    rewrite Hm3. apply Z.div_pos; [lia|apply Z.pow_pos_nonneg; lia].
Qed.

Lemma div_million_lt1 u :
  -1000000 < u < 1000000 → lt1 (div (of_long u) (of_long 1000000)).
Proof.
  intros Hu. destruct (Z.eq_dec u 0) as [->|Hu0]; [done|].
  destruct (div_million_core u Hu0 Hu) as (q & e & l & -> & Hq & He & Hb).
  apply binary_round_aux_lt1; lia.
Qed.

Lemma div_million_positive u :
  0 < u < 1000000 → positive (div (of_long u) (of_long 1000000)).
Proof.
  intros Hu.
  destruct (div_million_core u ltac:(lia) ltac:(lia)) as (q & e & l & -> & Hq & He & Hb).
  replace (u <? 0) with false by (symmetry; apply Z.ltb_ge; lia).
  apply binary_round_aux_positive; lia.
Qed.

(** A number that is at least one plus a number of magnitude below one is
    above zero. *)
Lemma add_ge1_lt1 a b :
  ge1 a → representable a → lt1 b → positive (add a b).
Proof.
  destruct a as [[]|[]| |[] ma ea]; cbn [ge1]; try done;
    destruct b as [sb|sb| |sb mb eb]; cbn [lt1 representable]; try done.
  intros Ha Hea [Heb Hb]. unfold add. cbn [SFadd].
  destruct (shl_align_spec ma ea (Z.min ea eb)) as [_ HA].
  destruct (shl_align_spec mb eb (Z.min ea eb)) as [_ HB].
  rewrite HA, HB.
  replace (Z.min ea (Z.min ea eb)) with (Z.min ea eb) by lia.
  replace (Z.min eb (Z.min ea eb)) with (Z.min ea eb) by lia.
  set (ez := Z.min ea eb).
  assert (Hez : ez <= eb ∧ ez <= ea ∧ ez <= 0 ∧ -1074 <= ez) by lia.
  assert (Hpz : 0 < 2 ^ (eb - ez)) by (apply Z.pow_pos_nonneg; lia).
  assert (HBlt : Z.pos mb * 2 ^ (eb - ez) < 2 ^ (- ez)).
  { replace (- ez) with (- eb + (eb - ez)) by lia.
    rewrite Z.pow_add_r by lia.
    apply Z.mul_lt_mono_pos_r; done. }
  assert (HAge : 2 ^ (- ez) <= Z.pos ma * 2 ^ (ea - ez)).
  { destruct (Z_le_gt_dec ea 0) as [Hle|Hgt].
    - replace (- ez) with (- ea + (ea - ez)) by lia.
      rewrite Z.pow_add_r by lia.
      apply Z.mul_le_mono_nonneg_r; [apply Z.pow_nonneg; lia|done].
    - assert (2 ^ (- ez) <= 2 ^ (ea - ez)) by (apply Z.pow_le_mono_r; lia).
      assert (0 < 2 ^ (ea - ez)) by (apply Z.pow_pos_nonneg; lia).
      nia. }
  set (A := Z.pos ma * 2 ^ (ea - ez)) in *.
  set (B := Z.pos mb * 2 ^ (eb - ez)) in *.
  assert (Hsum : 0 < cond_Zopp false A + cond_Zopp sb B)
    by (destruct sb; cbn [cond_Zopp]; lia).
  destruct (cond_Zopp false A + cond_Zopp sb B) as [|p|p]; try lia.
  cbn [binary_normalize]. apply binary_round_positive. lia.
Qed.

(** [double(dsec) + double(dusec) / double(1000000)] is above zero when
    the readings differ and the second is the later one. *)
Lemma sum_positive dsec dusec :
  0 <= dsec → -1000000 < dusec < 1000000 →
  (dsec = 0 → 0 < dusec) →
  positive (add (of_long dsec) (div (of_long dusec) (of_long 1000000))).
Proof.
  intros Hs Hu H0.
  destruct (Z.eq_dec dsec 0) as [->|Hnz].
  - change (of_long 0) with zero.
    rewrite add_zero_signed; [apply div_million_positive; lia|].
    apply div_million_signed.
    pose proof (of_long_signed dusec) as H.
    replace (dusec <? 0) with false in H; [done|]. symmetry. apply Z.ltb_ge. lia.
  - apply add_ge1_lt1.
    + apply of_long_ge1. lia.
    + apply of_long_representable.
    + by apply div_million_lt1.
Qed.

Lemma positive_opp x : positive x → negative (opp x).
Proof. by destruct x as [[]|[]| |[] m e]. Qed.

Lemma add_opp_exact x y :
  positive (add x y) → add (opp x) (opp y) = opp (add x y).
Proof.
  destruct x as [[]|[]| |sx mx ex], y as [[]|[]| |sy my ey];
    try (by cbn); try (by destruct sx); try (by destruct sy).
  unfold add, opp. cbn [SFopp SFadd].
  set (A := Z.pos (shl_align mx ex (Z.min ex ey)).1).
  set (B := Z.pos (shl_align my ey (Z.min ex ey)).1).
  replace (cond_Zopp (negb sx) A + cond_Zopp (negb sy) B)
    with (- (cond_Zopp sx A + cond_Zopp sy B))
    by (destruct sx, sy; cbn [cond_Zopp negb]; lia).
  destruct (cond_Zopp sx A + cond_Zopp sy B) as [|p|p]; cbn [Z.opp binary_normalize].
  - done.
  - intros _. apply (binary_round_opp false p (Z.min ex ey)).
  - intros _. apply (binary_round_opp true p (Z.min ex ey)).
Qed.

(** With the two readings exchanged the computed value is the opposite
    one. *)
Lemma sum_exchanged dsec dusec :
  0 <= dsec → -1000000 < dusec < 1000000 →
  (dsec = 0 → 0 < dusec) →
  add (of_long (- dsec)) (div (of_long (- dusec)) (of_long 1000000))
  = opp (add (of_long dsec) (div (of_long dusec) (of_long 1000000))).
Proof.
  intros Hs Hu H0. pose proof (sum_positive dsec dusec Hs Hu H0) as Hpos.
  destruct (Z.eq_dec dsec 0) as [->|Hnz].
  - specialize (H0 eq_refl). rewrite (of_long_opp dusec) by lia. rewrite div_million_opp.
    change (of_long (- 0)) with zero. change (of_long 0) with zero in *.
    destruct (div _ _) as [[]|[]| |[] m e]; done.
  - destruct (Z.eq_dec dusec 0) as [->|Hunz].
    + change (of_long (- 0)) with zero. change (of_long 0) with zero in *.
      rewrite div_million_zero in *. rewrite (of_long_opp dsec) by done.
      destruct (of_long dsec) as [[]|[]| |[] m e]; done.
    + rewrite !of_long_opp by done. rewrite div_million_opp.
      by apply add_opp_exact.
Qed.

End DoubleStrict.

Section TimerFields.
Context `{Platform}.

(** When both readings carry the same microseconds, [timer_stop] returns
    the difference of the seconds converted to a double, with no other
    rounding. *)
Theorem timer_stop_whole_seconds start end_ w w' :
  wall_clock start → wall_clock end_ → tv_usec start = tv_usec end_ →
  gettimeofday w = (end_, w') →
  timer_stop start w =
    Returned (Double.of_long (tv_sec end_ - tv_sec start), start) w'.
Proof.
  intros Hs He Husec Hclock.
  rewrite (timer_stop_reads start end_ w w' Hs He Hclock).
  unfold elapsed_formula. rewrite Husec, Z.sub_diag.
  change (Double.of_long 0) with Double.zero.
  by rewrite DoubleMirror.div_million_zero, DoubleMirror.add_of_long_zero.
Qed.

(** When the second reading falls in the same second as the first and not
    before it, [timer_stop] returns the quotient of the microseconds by one
    million, rounded once. *)
Theorem timer_stop_same_second start end_ w w' :
  wall_clock start → wall_clock end_ →
  tv_sec start = tv_sec end_ → (tv_usec start <= tv_usec end_)%Z →
  gettimeofday w = (end_, w') →
  timer_stop start w =
    Returned (Double.div (Double.of_long (tv_usec end_ - tv_usec start))
                         (Double.of_long 1000000), start) w'.
Proof.
  intros Hs He Hsec Husec Hclock.
  rewrite (timer_stop_reads start end_ w w' Hs He Hclock).
  unfold elapsed_formula. rewrite Hsec, Z.sub_diag.
  change (Double.of_long 0) with Double.zero.
  rewrite DoubleMirror.add_zero_signed; [done|].
  apply DoubleFacts.div_million_signed.
  pose proof (DoubleFacts.of_long_signed (tv_usec end_ - tv_usec start)) as Hsigned.
  replace (tv_usec end_ - tv_usec start <? 0)%Z with false in Hsigned; [done|].
  symmetry. apply Z.ltb_ge. lia.
Qed.

(** When the clock has stepped back, so that the second reading is earlier
    than the first, [timer_stop] returns a number below zero: the opposite
    of the value it returns for the same two readings in their right
    order.  Nothing clamps it. *)
Theorem timer_stop_clock_stepped_back start end_ w w' :
  wall_clock start → wall_clock end_ → earlier end_ start →
  gettimeofday w = (end_, w') →
  ∃ e, timer_stop start w = Returned (e, start) w' ∧
       e = Double.opp (elapsed_formula end_ start) ∧
       Double.negative e.
Proof.
  intros Hs He Hback Hclock. exists (elapsed_formula start end_).
  split; [by apply timer_stop_reads|].
  destruct Hs as [Hs1 Hs2], He as [He1 He2].
  assert (Hsec : (0 <= tv_sec start - tv_sec end_)%Z)
    by (destruct Hback as [Hlt|[Heq Hlt]]; lia).
  assert (Husec : (-1000000 < tv_usec start - tv_usec end_ < 1000000)%Z) by lia.
  assert (Hsame : (tv_sec start - tv_sec end_ = 0 → 0 < tv_usec start - tv_usec end_)%Z)
    by (destruct Hback as [Hlt|[Heq Hlt]]; lia).
  assert (Hopp : elapsed_formula start end_ = Double.opp (elapsed_formula end_ start)).
  { unfold elapsed_formula.
    replace (tv_sec end_ - tv_sec start)%Z with (- (tv_sec start - tv_sec end_))%Z by lia.
    replace (tv_usec end_ - tv_usec start)%Z with (- (tv_usec start - tv_usec end_))%Z by lia.
    by apply DoubleStrict.sum_exchanged. }
  split; [done|]. rewrite Hopp. apply DoubleStrict.positive_opp.
  by apply DoubleStrict.sum_positive.
Qed.

End TimerFields.

Lemma timer_stop_whole_seconds_witness :
  let start := Fixtures.at_time 1500000000 250000 in
  let end_ := Fixtures.at_time 1500000030 250000 in
  wall_clock start ∧ wall_clock end_ ∧ tv_usec start = tv_usec end_ ∧
  @timer_stop Fixtures.scripted_clock start [end_] =
    @Returned Fixtures.scripted_clock _ (Double.of_long 30, start) [].
Proof.
  intros start end_.
  assert (Hs : wall_clock start) by (unfold wall_clock; simpl; lia).
  assert (He : wall_clock end_) by (unfold wall_clock; simpl; lia).
  split; [exact Hs|]. split; [exact He|]. split; [reflexivity|].
  exact (@timer_stop_whole_seconds Fixtures.scripted_clock start end_ [end_] []
           Hs He eq_refl eq_refl).
Defined.

Lemma timer_stop_same_second_witness :
  let start := Fixtures.at_time 1500000000 250000 in
  let end_ := Fixtures.at_time 1500000000 750000 in
  wall_clock start ∧ wall_clock end_ ∧
  @timer_stop Fixtures.scripted_clock start [end_] =
    @Returned Fixtures.scripted_clock _
      (Double.div (Double.of_long 500000) (Double.of_long 1000000), start) [].
Proof.
  intros start end_.
  assert (Hs : wall_clock start) by (unfold wall_clock; simpl; lia).
  assert (He : wall_clock end_) by (unfold wall_clock; simpl; lia).
  split; [exact Hs|]. split; [exact He|].
  apply (@timer_stop_same_second Fixtures.scripted_clock start end_ [end_] [] Hs He).
  - reflexivity.
  - simpl; lia.
  - reflexivity.
Defined.

Lemma timer_stop_clock_stepped_back_witness :
  let start := Fixtures.at_time 1500000002 250000 in
  let end_ := Fixtures.at_time 1500000000 750000 in
  ∃ e, @timer_stop Fixtures.scripted_clock start [end_] =
         @Returned Fixtures.scripted_clock _ (e, start) []
       ∧ e = Double.opp (elapsed_formula end_ start)
       ∧ Double.negative e.
Proof.
  intros start end_.
  apply (@timer_stop_clock_stepped_back Fixtures.scripted_clock start end_ [end_] []).
  - unfold wall_clock; simpl; lia.
  - unfold wall_clock; simpl; lia.
  - left; simpl; lia.
  - reflexivity.
Defined.

(** Minus one and a half seconds when the clock stepped back by as much. *)
Example elapsed_backwards_example :
  elapsed (Fixtures.at_time 1500000002 250000) (Fixtures.at_time 1500000000 750000)
  = S754_finite true 6755399441055744 (-52).
Proof. vm_compute. reflexivity. Qed.

(** *** The other single benchmarks *)

Section Sleep.
Context `{Platform}.

(** [benchmark_sleep] returns the time between the clock read before the
    pause and the one after it; with a wall clock that did not step back in
    between, that is a number not below zero. *)
Theorem benchmark_sleep_nonneg w0 tv_start w1 tv_end w2 :
  gettimeofday w0 = (tv_start, w1) →
  gettimeofday (sleep 1 w1) = (tv_end, w2) →
  wall_clock tv_start → wall_clock tv_end → not_earlier tv_start tv_end →
  benchmark_sleep w0 = Returned (elapsed_formula tv_start tv_end) w2 ∧
  Double.nonneg (elapsed_formula tv_start tv_end).
Proof.
  intros Hstart Hend Hs He Hle. split.
  - unfold benchmark_sleep. run. rewrite Hstart.
    rewrite (timer_stop_reads tv_start tv_end _ w2 Hs He Hend). done.
  - destruct Hs as [Hs1 Hs2], He as [He1 He2].
    apply DoubleFacts.sum_nonneg; destruct Hle as [Hlt|[Heq Hle]]; lia.
Qed.

End Sleep.

Lemma benchmark_sleep_nonneg_witness :
  let t0 := Fixtures.at_time 1500000000 999000 in
  let t1 := Fixtures.at_time 1500000002 100 in
  @benchmark_sleep Fixtures.scripted_clock [t0; t1] =
    @Returned Fixtures.scripted_clock _ (elapsed_formula t0 t1) [] ∧
  Double.nonneg (elapsed_formula t0 t1).
Proof.
  intros t0 t1.
  apply (@benchmark_sleep_nonneg Fixtures.scripted_clock [t0; t1] t0 [t1] t1 []).
  - reflexivity.
  - reflexivity.
  - unfold wall_clock; simpl; lia.
  - unfold wall_clock; simpl; lia.
  - left; simpl; lia.
Defined.

Section JoinSplitMore.
Context `{ProofSystem}.

(** If the description that [benchmark_create_joinsplit] constructed does
    not verify, the run stops at the assertion of line 90 and the time that
    was measured is lost. *)
Theorem create_joinsplit_aborts_on_failed_verification
    w0 tv_start w1 jsdesc w2 tv_end w3 w4 :
  gettimeofday w0 = (tv_start, w1) →
  JSDescription_new pzcashParams uint256_default empty_tree_root
    [JSInput_default; JSInput_default] [JSOutput_default; JSOutput_default]
    0 0 w1 = (jsdesc, w2) →
  gettimeofday w2 = (tv_end, w3) →
  Verify jsdesc pzcashParams uint256_default w3 = (false, w4) →
  benchmark_create_joinsplit w0 = Aborted AssertJoinSplitVerifies w4.
Proof.
  intros Hstart Hnew Hend Hverify.
  pose proof (create_joinsplit_body_run w0) as Hrun.
  rewrite Hstart, Hnew, Hend, Hverify in Hrun.
  unfold benchmark_create_joinsplit. run. by rewrite Hrun.
Qed.

(** The description that [benchmark_create_joinsplit] constructs is one on
    which [benchmark_verify_joinsplit] times a successful verification:
    both use the global parameters and a zero public-key hash, so for a
    proof system in which a fresh proof verifies, the [Verify] call between
    the two clock reads of [benchmark_verify_joinsplit] answers true,
    whenever that benchmark is run. *)
Theorem created_joinsplit_passes_verify_joinsplit w0 e jsdesc w1 w :
  fresh_proof_verifies →
  create_joinsplit_body w0 = Returned (e, jsdesc) w1 →
  let '(tv_start, wa) := gettimeofday w in
  let '(ok, wb) := Verify jsdesc pzcashParams uint256_default wa in
  let '(tv_end, wc) := gettimeofday wb in
  ok = true ∧
  benchmark_verify_joinsplit jsdesc w = Returned (elapsed tv_start tv_end) wc.
Proof.
  intros Hfresh Hbody.
  pose proof (create_joinsplit_body_run w0) as Hrun.
  destruct (gettimeofday w0) as [t0 w0a].
  destruct (JSDescription_new _ _ _ _ _ _ _ w0a) as [js w0b] eqn:Hnew.
  destruct (gettimeofday w0b) as [t1 w0c].
  destruct (Verify js _ _ w0c) as [ok0 w0d].
  rewrite Hbody in Hrun. destruct ok0; [|done].
  injection Hrun as _ -> _.
  pose proof (verify_joinsplit_run js w) as Hv.
  destruct (gettimeofday w) as [tv_start wa].
  pose proof (Hfresh _ _ _ _ _ _ Hnew wa) as Hok.
  destruct (Verify js _ _ wa) as [ok wb]. cbn [fst] in Hok.
  destruct (gettimeofday wb) as [tv_end wc]. done.
Qed.

(** [benchmark_parameter_loading] returns a time only when both key files
    could be loaded; that time runs from the clock read that follows the
    two path resolutions to the clock read that follows [loadProvingKey],
    and the parameter object is deleted afterwards.  The verifying key is
    loaded from [z9-verifying.key] and the proving key path is
    [z9-proving.key] in the parameter directory.  When a loader throws, the
    exception leaves the function: the clock is not read again, no time is
    returned, and the parameter object is not deleted. *)
Theorem parameter_loading_outcome w0 :
  let '(dir1, w1) := ZC_GetParamsDir w0 in
  let '(dir2, w2) := ZC_GetParamsDir w1 in
  let '(tv_start, w3) := gettimeofday w2 in
  let '(p0, w4) := Unopened w3 in
  let '(loaded_vk, w5) := loadVerifyingKey (path_join dir2 "z9-verifying.key") p0 w4 in
  match loaded_vk with
  | None => benchmark_parameter_loading w0 = Thrown w5
  | Some p1 =>
      let '(p2, w6) := setProvingKeyPath (path_join dir1 "z9-proving.key") p1 w5 in
      let '(loaded_pk, w7) := loadProvingKey p2 w6 in
      match loaded_pk with
      | None => benchmark_parameter_loading w0 = Thrown w7
      | Some p3 =>
          let '(tv_end, w8) := gettimeofday w7 in
          benchmark_parameter_loading w0 =
            Returned (elapsed tv_start tv_end) (delete_params p3 w8)
      end
  end.
Proof.
  unfold benchmark_parameter_loading, timer_stop, call_or_throw. run.
  destruct (ZC_GetParamsDir w0) as [dir1 w1].
  destruct (ZC_GetParamsDir w1) as [dir2 w2].
  destruct (gettimeofday w2) as [tv_start w3].
  destruct (Unopened w3) as [p0 w4].
  destruct (loadVerifyingKey _ p0 w4) as [[p1|] w5]; [|done].
  destruct (setProvingKeyPath _ p1 w5) as [p2 w6].
  destruct (loadProvingKey p2 w6) as [[p3|] w7]; [|done].
  destruct (gettimeofday w7) as [tv_end w8]. done.
Qed.

End JoinSplitMore.

Lemma create_joinsplit_aborts_on_failed_verification_witness :
  let t0 := Fixtures.at_time 10 0 in
  let t1 := Fixtures.at_time 12 500000 in
  @benchmark_create_joinsplit _ (Fixtures.naming_proofs false) [t0; t1] =
    @Aborted Fixtures.scripted_clock _ AssertJoinSplitVerifies [].
Proof.
  intros t0 t1.
  apply (@create_joinsplit_aborts_on_failed_verification _ (Fixtures.naming_proofs false)
           [t0; t1] t0 [t1] (7%Z, 0%Z, (0%Z, 0%Z)) [t1] t1 [] []);
    reflexivity.
Defined.

Lemma created_joinsplit_passes_verify_joinsplit_witness :
  let t0 := Fixtures.at_time 10 0 in
  let t1 := Fixtures.at_time 12 500000 in
  let t2 := Fixtures.at_time 30 0 in
  let t3 := Fixtures.at_time 30 250000 in
  let jsdesc : @JSDescription _ (Fixtures.naming_proofs true) := (7%Z, 0%Z, (0%Z, 0%Z)) in
  @fresh_proof_verifies _ (Fixtures.naming_proofs true) ∧
  @create_joinsplit_body _ (Fixtures.naming_proofs true) [t0; t1] =
    @Returned Fixtures.scripted_clock _ (elapsed t0 t1, jsdesc) [] ∧
  @benchmark_verify_joinsplit _ (Fixtures.naming_proofs true) jsdesc [t2; t3] =
    @Returned Fixtures.scripted_clock _ (elapsed t2 t3) [].
Proof.
  intros t0 t1 t2 t3 jsdesc.
  assert (Hfresh : @fresh_proof_verifies _ (Fixtures.naming_proofs true)).
  { intros params pubKeyHash anchor w js w1 Hnew w'.
    injection Hnew as <- _. simpl. by rewrite !Z.eqb_refl. }
  split; [exact Hfresh|]. split; [reflexivity|].
  exact (proj2 (@created_joinsplit_passes_verify_joinsplit _ (Fixtures.naming_proofs true)
                  [t0; t1] (elapsed t0 t1) jsdesc [] [t2; t3] Hfresh eq_refl)).
Defined.

(** With the verifying key file missing the exception of the loader leaves
    [benchmark_parameter_loading] with the second clock reading unread; with
    both files in place the function returns. *)
Lemma parameter_loading_outcome_witness :
  let t0 := Fixtures.at_time 10 0 in
  let t1 := Fixtures.at_time 12 500000 in
  @benchmark_parameter_loading _ (Fixtures.proofs_and_keys false true true) [t0; t1] =
    @Thrown Fixtures.scripted_clock _ [t1] ∧
  @benchmark_parameter_loading _ (Fixtures.proofs_and_keys true false true) [t0; t1] =
    @Thrown Fixtures.scripted_clock _ [t1] ∧
  @benchmark_parameter_loading _ (Fixtures.proofs_and_keys true true true) [t0; t1] =
    @Returned Fixtures.scripted_clock _ (elapsed t0 t1) [].
Proof.
  intros t0 t1. split; [|split].
  - exact (@parameter_loading_outcome _ (Fixtures.proofs_and_keys false true true) [t0; t1]).
  - exact (@parameter_loading_outcome _ (Fixtures.proofs_and_keys true false true) [t0; t1]).
  - exact (@parameter_loading_outcome _ (Fixtures.proofs_and_keys true true true) [t0; t1]).
Defined.


(** *** More on the concurrent runner *)

Section RunnerMore.
Context `{BoostThread}.

(** The durations returned are those of the tasks [0 .. nThreads-1], each
    collected exactly once: the result is a permutation of the values of
    the futures in launch order. *)
Theorem threaded_returns_each_duration_once (nThreads : Z) :
  wait_for_any_contract →
  ∃ ret, benchmark_solve_equihash_threaded nThreads = Some ret ∧
         ret ≡ₚ future_get <$> launch nThreads.
Proof.
  intros Hcontract.
  destruct (gather_collects_all Hcontract (launch nThreads) []) as (r & Hr & Hperm).
  exists r. split; [done|]. by rewrite Hperm.
Qed.

(** A negative concurrency degree launches nothing and returns the empty
    sequence. *)
Theorem threaded_negative_degree (nThreads : Z) :
  wait_for_any_contract → (nThreads < 0)%Z →
  benchmark_solve_equihash_threaded nThreads = Some [].
Proof.
  intros Hcontract Hneg. unfold benchmark_solve_equihash_threaded.
  destruct (gather_collects_all Hcontract (launch nThreads) []) as (r & -> & Hperm).
  unfold launch in Hperm. replace (Z.to_nat nThreads) with 0 in Hperm by lia.
  f_equal. by apply Permutation_nil_r.
Qed.

End RunnerMore.

Lemma threaded_returns_each_duration_once_witness :
  @wait_for_any_contract Fixtures.first_in_first_out ∧
  ∃ ret, @benchmark_solve_equihash_threaded Fixtures.first_in_first_out 4 = Some ret ∧
         ret ≡ₚ @future_get Fixtures.first_in_first_out <$> launch 4.
Proof.
  split; [exact first_in_first_out_contract|].
  exact (@threaded_returns_each_duration_once Fixtures.first_in_first_out 4
           first_in_first_out_contract).
Defined.

Lemma threaded_negative_degree_witness :
  @wait_for_any_contract Fixtures.first_in_first_out ∧ (-3 < 0)%Z ∧
  @benchmark_solve_equihash_threaded Fixtures.first_in_first_out (-3) = Some [].
Proof.
  split; [exact first_in_first_out_contract|]. split; [lia|].
  apply (@threaded_negative_degree Fixtures.first_in_first_out (-3)).
  - exact first_in_first_out_contract.
  - lia.
Defined.

Lemma wait_in_order_next (done rest : list nat) (i : nat) (tasks : list nat) :
  NoDup (done ++ i :: rest) → tasks ≡ₚ i :: rest →
  ∃ p, wait_in_order (done ++ i :: rest) tasks = Some p ∧ tasks !! p = Some i.
Proof.
  intros Hnodup Htasks.
  assert (Hin : i ∈ tasks) by (rewrite Htasks; left).
  unfold wait_in_order.
  destruct tasks as [|t ts] eqn:Htl; [by apply elem_of_nil in Hin|]. rewrite <- Htl in *.
  destruct (list_find (λ j, j ∈ tasks) (done ++ i :: rest)) as [[k x]|] eqn:Hfind.
  - apply list_find_Some in Hfind as (Hk & Hx & Hmin).
    assert (x = i) as ->.
    { destruct (decide (k < length done)) as [Hlt|Hge].
      - rewrite lookup_app_l in Hk by done.
        apply NoDup_app in Hnodup as (_ & Hdisj & _).
        exfalso. apply (Hdisj x); [by eapply list_elem_of_lookup_2|].
        by rewrite <- Htasks.
      - destruct (decide (k = length done)) as [->|Hne].
        + rewrite lookup_app_r, Nat.sub_diag in Hk by lia. by injection Hk.
        + exfalso. apply (Hmin (length done) i); [|lia|done].
          rewrite lookup_app_r, Nat.sub_diag by lia. done. }
    destruct (list_find (λ f, f = i) tasks) as [[p y]|] eqn:Hpos.
    + apply list_find_Some in Hpos as (Hp & -> & _). exists p. done.
    + apply list_find_None in Hpos. rewrite Forall_forall in Hpos.
      by destruct (Hpos i Hin).
  - apply list_find_None in Hfind. rewrite Forall_forall in Hfind.
    exfalso. apply (Hfind i); [|done]. apply elem_of_app. right. left.
Qed.

Lemma gather_in_order (get : nat → double) (order : list nat) :
  NoDup order →
  ∀ rest done tasks ret,
    order = done ++ rest → tasks ≡ₚ rest →
    @gather (Fixtures.completing_in get order) tasks ret = Some (ret ++ (get <$> rest)).
Proof.
  intros Hnodup rest.
  induction rest as [|i rest IH]; intros done tasks ret Horder Htasks.
  - apply Permutation_nil_r in Htasks as ->. rewrite gather_step. cbn.
    by rewrite app_nil_r.
  - rewrite gather_step. cbn [wait_for_any Fixtures.completing_in future_get].
    destruct (wait_in_order_next done rest i tasks) as (p & Hwait & Hp).
    { by rewrite <- Horder. }
    { done. }
    rewrite Horder, Hwait, Hp.
    rewrite <- Horder.
    rewrite (IH (done ++ [i]) (delete p tasks) (ret ++ [get i])).
    + by rewrite <- app_assoc.
    + by rewrite <- app_assoc.
    + apply (Permutation_cons_inv (a := i)).
      by rewrite <- (delete_Permutation tasks p i Hp).
Qed.

(** The sequence returned follows the order in which the futures become
    ready, not the order of launch: when the tasks complete in the order
    [order], any permutation of the launch positions, the runner returns
    their durations in that order. *)
Theorem threaded_follows_completion_order (get : nat → double)
    (order : list nat) (nThreads : Z) :
  order ≡ₚ launch nThreads →
  @benchmark_solve_equihash_threaded (Fixtures.completing_in get order) nThreads
  = Some (get <$> order).
Proof.
  intros Horder. unfold benchmark_solve_equihash_threaded.
  rewrite (gather_in_order get order) with (rest := order) (done := []); [done| |done|done].
  rewrite Horder. apply NoDup_seq.
Qed.

Lemma threaded_follows_completion_order_witness :
  [2; 0; 3; 1] ≡ₚ launch 4 ∧
  @benchmark_solve_equihash_threaded
    (Fixtures.completing_in (λ i, Double.of_long (Z.of_nat i)) [2; 0; 3; 1]) 4
  = Some (Double.of_long <$> [2; 0; 3; 1]%Z).
Proof.
  assert (Hperm : [2; 0; 3; 1] ≡ₚ launch 4).
  { change (launch 4) with [0; 1; 2; 3].
    change [2; 0; 3; 1] with ([2; 0] ++ [3; 1]).
    change [0; 1; 2; 3] with ([0] ++ [1; 2] ++ [3]).
    etransitivity; [apply Permutation_app; [apply perm_swap|apply perm_swap]|].
    cbn. apply perm_skip. etransitivity; [apply perm_swap|]. apply perm_skip.
    reflexivity. }
  split; [exact Hperm|].
  exact (@threaded_follows_completion_order (λ i, Double.of_long (Z.of_nat i))
           [2; 0; 3; 1] 4 Hperm).
Defined.

(** *** More on the large transaction *)

Section LargeTxMore.
Context `{SS : ScriptSystem}.

(** The loop of lines 179-184 appends [num] copies of one input, which
    spends output 0 of [input_hash] with an empty unlocking script, and
    leaves the inputs already there and the outputs as they were. *)
Theorem add_inputs_appends_copies num input_hash tx :
  vin (add_inputs num input_hash tx) =
    vin tx ++ replicate num (CTxIn_new input_hash 0) ∧
  vout (add_inputs num input_hash tx) = vout tx ∧
  ∀ i txin, length (vin tx) ≤ i →
    vin (add_inputs num input_hash tx) !! i = Some txin →
    prevout txin = {| hash := input_hash; n := 0 |} ∧ scriptSig txin = [].
Proof.
  rewrite add_inputs_eq. cbn [vin vout]. split; [done|]. split; [done|].
  intros i txin Hi. rewrite lookup_app_r by done.
  intros [-> _]%lookup_replicate. done.
Qed.

(** The size window is open at both ends, and the upper bound is checked
    first: a size of [MAX_BLOCK_SIZE + MAX_BLOCK_SIZE / 20] or more stops at
    the first size assertion, a smaller size of at most [MAX_BLOCK_SIZE -
    MAX_BLOCK_SIZE / 20] at the second, and every size in between passes. *)
Theorem check_size_outcome tx w :
  (0 <= MAX_BLOCK_SIZE)%Z → (MAX_BLOCK_SIZE + MAX_BLOCK_SIZE / 20 < 2 ^ 32)%Z →
  let size := serialized_size tx in
  let error := (MAX_BLOCK_SIZE / 20)%Z in
  ((MAX_BLOCK_SIZE + error <= size)%Z →
   check_size tx w = Aborted AssertSizeBelowUpper w) ∧
  ((size < MAX_BLOCK_SIZE + error)%Z → (size <= MAX_BLOCK_SIZE - error)%Z →
   check_size tx w = Aborted AssertSizeAboveLower w) ∧
  ((MAX_BLOCK_SIZE - error < size < MAX_BLOCK_SIZE + error)%Z →
   check_size tx w = Returned tt w).
Proof.
  intros Hmax Hfit size error. subst size error.
  unfold check_size, wrap32. run.
  assert (0 <= MAX_BLOCK_SIZE / 20 <= MAX_BLOCK_SIZE)%Z as [Hlo Hhi].
  { split; [apply Z.div_pos; lia|]. apply Z.div_le_upper_bound; lia. }
  rewrite !Z.mod_small by lia.
  destruct (Z.ltb_spec (serialized_size tx) (MAX_BLOCK_SIZE + MAX_BLOCK_SIZE / 20));
    destruct (Z.gtb_spec (serialized_size tx) (MAX_BLOCK_SIZE - MAX_BLOCK_SIZE / 20));
    (split; [|split]); intros; try done; lia.
Qed.

Lemma verify_from_first_fail (s : large_tx_state) i k w bad :
  i ≤ bad < i + k →
  (∀ j, i ≤ j < bad → ∀ w',
     (VerifyScript (default [] (scriptSig <$> vin (spending_tx s) !! j))
        (prevPubKey s) STANDARD_SCRIPT_VERIFY_FLAGS (spending_tx s, j) w').1 = true) →
  input_fails s bad →
  ∃ w', for_from i k (λ i _, verify_input s i) tt w =
        Aborted (AssertInputVerifies bad) w'.
Proof.
  revert i w. induction k as [|k IH]; intros i w Hbad Hpass Hfails; [lia|].
  rewrite for_from_S, verify_input_run.
  destruct (decide (i = bad)) as [->|Hne].
  - specialize (Hfails w). destruct (VerifyScript _ _ _ _ w) as [ok w1].
    cbn [fst] in Hfails. subst ok. by exists w1.
  - pose proof (Hpass i ltac:(lia) w) as Hi.
    destruct (VerifyScript _ _ _ _ w) as [ok w1]. cbn [fst] in Hi. subst ok.
    apply IH; [lia| |done]. intros j Hj. apply Hpass. lia.
Qed.

(** The verification loop stops at the first input that fails: when the
    inputs before [i] verify and input [i] does not, the run stops at the
    assertion for input [i], and no duration is returned. *)
Theorem verification_stops_at_first_failure w0 s w1 i :
  large_tx_setup w0 = Returned s w1 →
  i < NUM_INPUTS → correctly_signed i s → input_fails s i →
  ∃ w', benchmark_large_tx w0 = Aborted (AssertInputVerifies i) w'.
Proof.
  intros Hsetup Hi Hpass Hfails.
  rewrite (benchmark_large_tx_after_setup _ _ _ Hsetup).
  destruct (gettimeofday w1) as [tv_start w2].
  destruct (verify_from_first_fail s 0 NUM_INPUTS w2 i ltac:(lia)) as [w' Hrun].
  { intros j Hj. apply Hpass. lia. }
  { done. }
  exists w'. unfold verify_inputs, for_loop. by rewrite Hrun.
Qed.

End LargeTxMore.

Lemma check_size_outcome_witness :
  let SS := Fixtures.toy_scripts Fixtures.all_signed in
  let tx := {| vin := replicate 3 (CTxIn_new 1%Z 0%Z); vout := [] |} in
  (0 <= @MAX_BLOCK_SIZE _ SS)%Z ∧
  (@MAX_BLOCK_SIZE _ SS + @MAX_BLOCK_SIZE _ SS / 20 < 2 ^ 32)%Z ∧
  @check_size _ SS tx [] = @Aborted Fixtures.scripted_clock _ AssertSizeAboveLower [].
Proof.
  intros SS tx.
  assert (H1 : (0 <= @MAX_BLOCK_SIZE _ SS)%Z)
    by (unfold SS, Fixtures.toy_scripts; simpl; lia).
  assert (H2 : (@MAX_BLOCK_SIZE _ SS + @MAX_BLOCK_SIZE _ SS / 20 < 2 ^ 32)%Z)
    by (vm_compute; reflexivity).
  split; [exact H1|]. split; [exact H2|].
  apply (proj1 (proj2 (@check_size_outcome _ SS tx [] H1 H2))).
  - vm_compute; reflexivity.
  - vm_compute. discriminate.
Defined.

Lemma verification_stops_at_first_failure_witness :
  let SS := Fixtures.toy_scripts Fixtures.sixth_unsigned in
  let w0 : list timeval := [Fixtures.at_time 10 0; Fixtures.at_time 20 0] in
  let s := Fixtures.toy_state Fixtures.sixth_unsigned in
  @large_tx_setup _ SS w0 = @Returned Fixtures.scripted_clock _ s w0 ∧
  5 < NUM_INPUTS ∧ @correctly_signed _ SS 5 s ∧ @input_fails _ SS s 5 ∧
  ∃ w', @benchmark_large_tx _ SS w0 =
        @Aborted Fixtures.scripted_clock _ (AssertInputVerifies 5) w'.
Proof.
  intros SS w0 s.
  pose proof (toy_setup_run Fixtures.sixth_unsigned w0) as Hsetup.
  assert (Hnum : 5 < NUM_INPUTS) by (unfold NUM_INPUTS; lia).
  assert (Hpass : @correctly_signed _ SS 5 s).
  { intros i Hi w.
    etransitivity; [exact (toy_verdict Fixtures.sixth_unsigned i w ltac:(lia))|].
    unfold Fixtures.sixth_unsigned.
    destruct (Nat.eqb_spec i 5); [lia|done]. }
  assert (Hfails : @input_fails _ SS s 5).
  { intros w. exact (toy_verdict Fixtures.sixth_unsigned 5 w Hnum). }
  split; [exact Hsetup|]. split; [exact Hnum|]. split; [exact Hpass|].
  split; [exact Hfails|].
  exact (@verification_stops_at_first_failure _ SS w0 s w0 5 Hsetup Hnum Hpass Hfails).
Defined.
